(** * mon-diaporama: the slideshow export pipeline

    A shallow embedding of the export-related code of the slideshow
    application (the React component [App]): [drawSlideWithMotion],
    the frame callback [render] of [handleExport], the audio set-up of
    [handleExport] and the start-offset computation of
    [handlePlayPause].

    Numbers.  A JavaScript number is modelled by [num]: a finite value
    carried by an exact canonical rational ([Qc]), the two infinities and
    NaN.  Arithmetic on finite values is exact: binary64 rounding and the
    sign of zero are not modelled (a division of a non-zero finite value
    by zero yields the infinity of the sign of the dividend).  [Math.PI]
    is a parameter of the development. *)

From Stdlib Require Import ZArith QArith Qcanon Qround Lqa Lia List Bool String.
From Stdlib Require Import Ascii.
Import ListNotations.

Local Open Scope Qc_scope.

(** ** JavaScript numbers *)

Module JsNum.

Inductive num : Type :=
  | Fin (q : Qc)
  | Inf (positive : bool)
  | NaN.

Definition qz (z : Z) : Qc := Q2Qc (inject_Z z).
Definition qfrac (n : Z) (d : positive) : Qc := Q2Qc (n # d).
Definition ofZ (z : Z) : num := Fin (qz z).
Definition ofNat (n : nat) : num := ofZ (Z.of_nat n).
Definition ofN (n : N) : num := ofZ (Z.of_N n).

Definition Qcltb (a b : Qc) : bool :=
  match a ?= b with Lt => true | _ => false end.
Definition Qceqb (a b : Qc) : bool :=
  match a ?= b with Eq => true | _ => false end.

Definition isFinite (a : num) : bool :=
  match a with Fin _ => true | _ => false end.

(** ToBoolean on a number: [0] and [NaN] are falsy. *)
Definition truthy (a : num) : bool :=
  match a with
  | Fin q => negb (Qceqb q 0)
  | Inf _ => true
  | NaN => false
  end.

Definition nneg (a : num) : num :=
  match a with
  | Fin q => Fin (- q)
  | Inf s => Inf (negb s)
  | NaN => NaN
  end.

Definition nadd (a b : num) : num :=
  match a, b with
  | NaN, _ | _, NaN => NaN
  | Fin x, Fin y => Fin (x + y)
  | Fin _, Inf s => Inf s
  | Inf s, Fin _ => Inf s
  | Inf s, Inf t => if Bool.eqb s t then Inf s else NaN
  end.

Definition nsub (a b : num) : num := nadd a (nneg b).

(** The infinity of sign [s] scaled by the finite factor [q]. *)
Definition inf_scaled (s : bool) (q : Qc) : num :=
  match q ?= 0 with
  | Eq => NaN
  | Gt => Inf s
  | Lt => Inf (negb s)
  end.

Definition nmul (a b : num) : num :=
  match a, b with
  | NaN, _ | _, NaN => NaN
  | Fin x, Fin y => Fin (x * y)
  | Fin x, Inf s => inf_scaled s x
  | Inf s, Fin y => inf_scaled s y
  | Inf s, Inf t => Inf (Bool.eqb s t)
  end.

Definition ndiv (a b : num) : num :=
  match a, b with
  | NaN, _ | _, NaN => NaN
  | Fin x, Fin y =>
      if Qceqb y 0 then
        match x ?= 0 with
        | Eq => NaN
        | Gt => Inf true
        | Lt => Inf false
        end
      else Fin (x / y)
  | Fin _, Inf _ => Fin 0
  | Inf s, Fin y => if Qcltb y 0 then Inf (negb s) else Inf s
  | Inf _, Inf _ => NaN
  end.

Definition qfloor (q : Qc) : Z := Qfloor (this q).
Definition qceiling (q : Qc) : Z := Qceiling (this q).

(** Rounding towards zero, the quotient used by the remainder operator. *)
Definition qtrunc (q : Qc) : Z :=
  if Qcltb q 0 then qceiling q else qfloor q.

(** The remainder operator [%]: the result has the sign of the dividend. *)
Definition nrem (a b : num) : num :=
  match a, b with
  | NaN, _ | _, NaN => NaN
  | Inf _, _ => NaN
  | Fin x, Inf _ => Fin x
  | Fin x, Fin y =>
      if Qceqb y 0 then NaN else Fin (x - y * qz (qtrunc (x / y)))
  end.

(** [Math.floor]. *)
Definition nfloor (a : num) : num :=
  match a with
  | Fin q => Fin (qz (qfloor q))
  | other => other
  end.


(** [<]: false as soon as one operand is NaN. *)
Definition nlt (a b : num) : bool :=
  match a, b with
  | NaN, _ | _, NaN => false
  | Fin x, Fin y => Qcltb x y
  | Fin _, Inf s => s
  | Inf s, Fin _ => negb s
  | Inf s, Inf t => negb s && t
  end.

Definition ngt (a b : num) : bool := nlt b a.

(** [===] on numbers. *)
Definition nequal (a b : num) : bool :=
  match a, b with
  | Fin x, Fin y => Qceqb x y
  | Inf s, Inf t => Bool.eqb s t
  | _, _ => false
  end.

(** [>=]: less-than with the operands swapped, or equality. *)
Definition nge (a b : num) : bool := nlt b a || nequal a b.

(** [Math.min] of two arguments. *)
Definition nmin (a b : num) : num :=
  match a, b with
  | NaN, _ | _, NaN => NaN
  | _, _ => if nlt b a then b else a
  end.

(** The smaller of two rationals, [Math.min] on finite numbers. *)
Definition qmin (a b : Qc) : Qc := if Qcltb b a then b else a.

(** Reading [xs[i]] for a number [i]: an element for an integral index
    inside the array, [undefined] ([None]) otherwise. *)
Definition index {A : Type} (xs : list A) (i : num) : option A :=
  match i with
  | Fin q =>
      let z := qfloor q in
      if Qceqb (qz z) q && (0 <=? z)%Z then nth_error xs (Z.to_nat z) else None
  | _ => None
  end.

End JsNum.
Import JsNum.

(** ** Data model ([types.ts]) *)

Inductive MotionEffect : Type :=
  | MotionNone | ZoomIn | ZoomOut | PanLeft | PanRight | PanUp | PanDown
  | RotateMotion.

Inductive TransitionEffect : Type :=
  | TFade | TSlide | TZoomIn | TZoomOut.

Record ImageSlide : Type := mkSlide {
  id : string;
  objectUrl : string;
  motion : MotionEffect
}.

Record SlideshowSettings : Type := mkSettings {
  slideDuration : num;
  transitionDuration : num;
  transitionEffect : TransitionEffect
}.

Inductive MusicBehavior : Type := Loop | Fade.

(** An [HTMLImageElement] as the export reads it: its natural size and
    whether it holds decoded image data. *)
Record HTMLImageElement : Type := mkImage {
  src : string;
  naturalWidth : N;
  naturalHeight : N;
  decoded : bool
}.


(** ** The 2D canvas context *)

(** The calls made on the [CanvasRenderingContext2D], in program order. *)
Inductive CanvasCall : Type :=
  | Save
  | Restore
  | SetFillStyle (colour : string)
  | SetGlobalAlpha (a : num)
  | FillRect (x y w h : num)
  | Translate (x y : num)
  | Rotate (angle : num)
  | DrawImage (img : HTMLImageElement) (x y w h : num).

(** ** [drawSlideWithMotion] *)

Section Draw.

Variable PI : Qc.

Record MotionParams : Type := mkParams {
  scale : num;
  dx : num;
  dy : num;
  rotation : num
}.

(** The [switch (slide.motion)] over the initial values
    [scale = 1.15], [dx = dy = rotation = 0]. *)
Definition motionParams (m : MotionEffect) (progress width height : num)
  : MotionParams :=
  let scale0 := Fin (qfrac 115 100) in
  let zero := Fin 0 in
  match m with
  | ZoomIn =>
      mkParams (nadd (Fin 1) (nmul progress (Fin (qfrac 15 100)))) zero zero zero
  | ZoomOut =>
      mkParams (nsub (Fin (qfrac 115 100)) (nmul progress (Fin (qfrac 15 100))))
               zero zero zero
  | PanLeft =>
      mkParams scale0
               (nmul (nsub (Fin (qfrac 1 2)) progress)
                     (nmul width (Fin (qfrac 1 10))))
               zero zero
  | PanRight =>
      mkParams scale0
               (nmul (nsub progress (Fin (qfrac 1 2)))
                     (nmul width (Fin (qfrac 1 10))))
               zero zero
  | PanUp =>
      mkParams scale0 zero
               (nmul (nsub (Fin (qfrac 1 2)) progress)
                     (nmul height (Fin (qfrac 1 10))))
               zero
  | PanDown =>
      mkParams scale0 zero
               (nmul (nsub progress (Fin (qfrac 1 2)))
                     (nmul height (Fin (qfrac 1 10))))
               zero
  | RotateMotion =>
      mkParams (Fin (qfrac 12 10)) zero zero
               (nmul (nmul (nsub progress (Fin (qfrac 1 2))) (Fin (qz 2)))
                     (ndiv (Fin PI) (Fin (qz 180))))
  | MotionNone => mkParams (Fin 1) zero zero zero
  end.

(** The cover fit: [(renderWidth, renderHeight)]. *)
Definition renderSize (img : HTMLImageElement) (width height scale : num)
  : num * num :=
  let imgAspectRatio := ndiv (ofN (naturalWidth img)) (ofN (naturalHeight img)) in
  let canvasAspectRatio := ndiv width height in
  if ngt imgAspectRatio canvasAspectRatio then
    let renderHeight := nmul height scale in
    let renderWidth := nmul renderHeight imgAspectRatio in
    (renderWidth, renderHeight)
  else
    let renderWidth := nmul width scale in
    let renderHeight := ndiv renderWidth imgAspectRatio in
    (renderWidth, renderHeight).

Definition drawSlideWithMotion (width height : num) (slide : ImageSlide)
    (img : HTMLImageElement) (progress : num) : list CanvasCall :=
  let p := motionParams (motion slide) progress width height in
  let '(renderWidth, renderHeight) := renderSize img width height (scale p) in
  let xOffset := nadd (ndiv (nsub width renderWidth) (Fin (qz 2))) (dx p) in
  let yOffset := nadd (ndiv (nsub height renderHeight) (Fin (qz 2))) (dy p) in
  [ Save;
    SetFillStyle "black";
    FillRect (Fin 0) (Fin 0) width height;
    Translate (ndiv width (Fin (qz 2))) (ndiv height (Fin (qz 2)));
    Rotate (rotation p);
    Translate (ndiv (nneg width) (Fin (qz 2))) (ndiv (nneg height) (Fin (qz 2)));
    DrawImage img xOffset yOffset renderWidth renderHeight;
    Restore ].

End Draw.

(** ** What the canvas paints

    The browser side of the calls above, after the HTML canvas interface:
    [save] and [restore] push and pop the drawing state; an assignment to
    [globalAlpha] outside [0, 1] (or not finite) is ignored; a call with a
    non-finite argument paints nothing; [drawImage] paints nothing for an
    image without decoded data or with an empty natural size. *)

Module Canvas.

Inductive Xform : Type :=
  | XTranslate (x y : Qc)
  | XRotate (angle : Qc).

Record DrawState : Type := mkDrawState {
  globalAlpha : Qc;
  fillStyle : string;
  ctm : list Xform
}.

Record t : Type := mkCanvas {
  cur : DrawState;
  stack : list DrawState
}.

Inductive Paint : Type :=
  | PaintRect (colour : string) (alpha : Qc) (m : list Xform) (x y w h : Qc)
  | PaintImage (img : HTMLImageElement) (alpha : Qc) (m : list Xform)
               (x y w h : Qc).

Definition initial : t := mkCanvas (mkDrawState 1 "#000000" []) [].

Definition drawable (img : HTMLImageElement) : bool :=
  decoded img && (0 <? naturalWidth img)%N && (0 <? naturalHeight img)%N.

Definition validAlpha (q : Qc) : bool :=
  negb (Qcltb q 0) && negb (Qcltb 1 q).

Definition exec (c : t) (call : CanvasCall) : t * list Paint :=
  let s := cur c in
  match call with
  | Save => (mkCanvas s (s :: stack c), [])
  | Restore =>
      match stack c with
      | [] => (c, [])
      | top :: rest => (mkCanvas top rest, [])
      end
  | SetFillStyle colour =>
      (mkCanvas (mkDrawState (globalAlpha s) colour (ctm s)) (stack c), [])
  | SetGlobalAlpha (Fin a) =>
      if validAlpha a
      then (mkCanvas (mkDrawState a (fillStyle s) (ctm s)) (stack c), [])
      else (c, [])
  | SetGlobalAlpha _ => (c, [])
  | FillRect (Fin x) (Fin y) (Fin w) (Fin h) =>
      (c, [PaintRect (fillStyle s) (globalAlpha s) (ctm s) x y w h])
  | FillRect _ _ _ _ => (c, [])
  | Translate (Fin x) (Fin y) =>
      (mkCanvas (mkDrawState (globalAlpha s) (fillStyle s)
                             (ctm s ++ [XTranslate x y])) (stack c), [])
  | Translate _ _ => (c, [])
  | Rotate (Fin a) =>
      (mkCanvas (mkDrawState (globalAlpha s) (fillStyle s)
                             (ctm s ++ [XRotate a])) (stack c), [])
  | Rotate _ => (c, [])
  | DrawImage img (Fin x) (Fin y) (Fin w) (Fin h) =>
      if drawable img
      then (c, [PaintImage img (globalAlpha s) (ctm s) x y w h])
      else (c, [])
  | DrawImage _ _ _ _ _ => (c, [])
  end.

Fixpoint run (c : t) (calls : list CanvasCall) : t * list Paint :=
  match calls with
  | [] => (c, [])
  | call :: rest =>
      let '(c1, p1) := exec c call in
      let '(c2, p2) := run c1 rest in
      (c2, p1 ++ p2)
  end.

End Canvas.

(** ** The export: constants, image loading, the frame callback *)


(** [setExportProgress] messages. *)
Inductive ProgressMsg : Type :=
  | MsgEmpty
  | MsgInit
  | MsgAudioFailed
  | MsgRendering (photo : num) (count : nat) (percent : num).





Section Rendering.

Variable PI : Qc.
Variable slides : list ImageSlide.
Variable loadedImages : list HTMLImageElement.
Variable settings : SlideshowSettings.

Definition period : num :=
  nadd (slideDuration settings) (transitionDuration settings).











End Rendering.

(** ** Audio: the gain automation timeline

    [gainNode.gain] is an [AudioParam] whose default value is 1.  The
    export schedules [setValueAtTime] and [linearRampToValueAtTime]
    events on it.  After the Web Audio interface: an event whose time is
    negative or not finite is refused with an exception; events are kept
    ordered by time, an event entered later going after those of the same
    time; a ramp interpolates linearly from the previous event. *)

Module Gain.

Inductive Event : Type :=
  | SetValueAtTime (value time : Qc)
  | LinearRampToValueAtTime (value time : Qc).

Definition time (e : Event) : Qc :=
  match e with
  | SetValueAtTime _ t => t
  | LinearRampToValueAtTime _ t => t
  end.

Fixpoint insert (e : Event) (timeline : list Event) : list Event :=
  match timeline with
  | [] => [e]
  | e' :: rest =>
      if Qcltb (time e) (time e') then e :: timeline else e' :: insert e rest
  end.

Definition timeline (calls : list Event) : list Event :=
  fold_left (fun tl e => insert e tl) calls [].

(** The value at time [t], past an event of value [v0] at time [t0]. *)
Fixpoint valueFrom (t0 v0 : Qc) (evs : list Event) (t : Qc) : Qc :=
  match evs with
  | [] => v0
  | SetValueAtTime v t1 :: rest =>
      if Qcltb t t1 then v0 else valueFrom t1 v rest t
  | LinearRampToValueAtTime v t1 :: rest =>
      if Qcltb t t1
      then v0 + (v - v0) * ((t - t0) / (t1 - t0))
      else valueFrom t1 v rest t
  end.

Definition defaultValue : Qc := 1.

(** The gain at time [t] for the events scheduled by [calls]; [start] is
    the context time at which the first of them was scheduled. *)
Definition valueAt (start : Qc) (calls : list Event) (t : Qc) : Qc :=
  valueFrom start defaultValue (timeline calls) t.

End Gain.

(** ** Audio: the set-up block of [handleExport] *)

Record HTMLAudioElement : Type := mkAudio {
  audioSrc : string;
  loop : bool;
  currentTime : num;
  paused : bool
}.

(** Which of the three callbacks settles the readiness promise first. *)
Inductive Readiness : Type :=
  | CanPlayThrough
  | LoadError
  | TimedOut.

(** What the browser answers during the set-up. *)
Record AudioEnv : Type := mkAudioEnv {
  contextConstructs : bool;
  readiness : Readiness;
  graphConstructs : bool;
  destinationHasTrack : bool;
  duration : num;
  contextTime : num
}.

Record AudioState : Type := mkAudioState {
  exportAudio : option HTMLAudioElement;
  releasedAudio : list HTMLAudioElement;
  streamAudioTracks : nat;
  gainCalls : list Gain.Event;
  mainPlayerMuted : bool;
  progressLog : list ProgressMsg
}.

(** A computation of the [try] block: it may throw, and the assignments
    made before the throw stay visible to the [catch] block. *)
Inductive Completion (A : Type) : Type :=
  | Normal (a : A)
  | Thrown.
Arguments Normal {A} a.
Arguments Thrown {A}.

Definition M (A : Type) : Type := AudioState -> AudioState * Completion A.

Definition ret {A : Type} (a : A) : M A := fun s => (s, Normal a).
Definition throw {A : Type} : M A := fun s => (s, Thrown).
Definition bind {A B : Type} (m : M A) (k : A -> M B) : M B :=
  fun s =>
    match m s with
    | (s', Normal a) => k a s'
    | (s', Thrown) => (s', Thrown)
    end.
Definition modify (f : AudioState -> AudioState) : M unit :=
  fun s => (f s, Normal tt).
Definition guard (ok : bool) : M unit := if ok then ret tt else throw.
Definition when (b : bool) (m : M unit) : M unit := if b then m else ret tt.

Notation "m ;; k" := (bind m (fun _ => k))
  (at level 61, right associativity).

Definition setExportAudio (a : option HTMLAudioElement) : M unit :=
  modify (fun s => mkAudioState a (releasedAudio s) (streamAudioTracks s)
                     (gainCalls s) (mainPlayerMuted s) (progressLog s)).

Definition updateExportAudio (f : HTMLAudioElement -> HTMLAudioElement) : M unit :=
  modify (fun s => mkAudioState (option_map f (exportAudio s)) (releasedAudio s)
                     (streamAudioTracks s) (gainCalls s) (mainPlayerMuted s)
                     (progressLog s)).

Definition addTrack : M unit :=
  modify (fun s => mkAudioState (exportAudio s) (releasedAudio s)
                     (S (streamAudioTracks s)) (gainCalls s)
                     (mainPlayerMuted s) (progressLog s)).

Definition muteMainPlayer : M unit :=
  modify (fun s => mkAudioState (exportAudio s) (releasedAudio s)
                     (streamAudioTracks s) (gainCalls s) true (progressLog s)).

Definition setExportProgress (msg : ProgressMsg) : M unit :=
  modify (fun s => mkAudioState (exportAudio s) (releasedAudio s)
                     (streamAudioTracks s) (gainCalls s) (mainPlayerMuted s)
                     (progressLog s ++ [msg])).

(** [exportAudio.pause(); exportAudio = null]. *)
Definition releaseExportAudio : M unit :=
  modify (fun s =>
    match exportAudio s with
    | Some a =>
        mkAudioState None
          (releasedAudio s ++ [mkAudio (audioSrc a) (loop a) (currentTime a) true])
          (streamAudioTracks s) (gainCalls s) (mainPlayerMuted s) (progressLog s)
    | None => s
    end).

(** A scheduling call on [gainNode.gain]. *)
Definition schedule (mk : Qc -> Qc -> Gain.Event) (value : Qc) (t : num) : M unit :=
  match t with
  | Fin q =>
      if Qcltb q 0 then throw
      else modify (fun s => mkAudioState (exportAudio s) (releasedAudio s)
                              (streamAudioTracks s) (gainCalls s ++ [mk value q])
                              (mainPlayerMuted s) (progressLog s))
  | _ => throw
  end.

Definition behaviorIsLoop (b : MusicBehavior) : bool :=
  match b with Loop => true | Fade => false end.
Definition behaviorIsFade (b : MusicBehavior) : bool :=
  match b with Fade => true | Loop => false end.

Section Audio.

Variable slides : list ImageSlide.
Variable settings : SlideshowSettings.
Variable musicBehavior : MusicBehavior.
Variable hasMainPlayer : bool.
Variable env : AudioEnv.

(** The fade-out plan at the end of the [try] block.  The three reads of
    [audioCtx.currentTime] happen in one synchronous run of the block and
    give the same value, [contextTime env]. *)
Definition planFade : M unit :=
  let totalSlideshowDuration :=
    nmul (ofNat (List.length slides))
         (nadd (slideDuration settings) (transitionDuration settings)) in
  let musicDuration := duration env in
  when (behaviorIsFade musicBehavior && nlt totalSlideshowDuration musicDuration)
    (let FADE_DURATION := nmin (Fin (qz 2)) (transitionDuration settings) in
     let fadeStartTime := nsub totalSlideshowDuration FADE_DURATION in
     schedule Gain.SetValueAtTime 1 (contextTime env) ;;
     when (ngt fadeStartTime (Fin 0))
       (schedule Gain.SetValueAtTime 1 (nadd (contextTime env) fadeStartTime)) ;;
     schedule Gain.LinearRampToValueAtTime (qfrac 1 1000)
              (nadd (contextTime env) totalSlideshowDuration)).

(** The body of the [try] block. *)
Definition audioTry (musicUrl : string) : M unit :=
  guard (contextConstructs env) ;;
  setExportAudio (Some (mkAudio musicUrl false (Fin 0) true)) ;;
  match readiness env with
  | CanPlayThrough => ret tt
  | LoadError => throw
  | TimedOut => throw
  end ;;
  guard (graphConstructs env) ;;
  when (destinationHasTrack env) addTrack ;;
  updateExportAudio (fun a =>
    mkAudio (audioSrc a) (behaviorIsLoop musicBehavior) (Fin 0) (paused a)) ;;
  when hasMainPlayer muteMainPlayer ;;
  updateExportAudio (fun a => mkAudio (audioSrc a) (loop a) (currentTime a) false) ;;
  planFade.

(** The [catch] block. *)
Definition audioCatch : M unit :=
  setExportProgress MsgAudioFailed ;;
  releaseExportAudio.

(** [if (musicUrl) { try { ... } catch (e) { ... } }]. *)
Definition audioSetup (musicUrl : option string) : M unit :=
  match musicUrl with
  | None => ret tt
  | Some url =>
      fun s =>
        match audioTry url s with
        | (s', Normal _) => (s', Normal tt)
        | (s', Thrown) => audioCatch s'
        end
  end.

End Audio.

(** The scheduling calls of the fade, for the context time [now], the
    total duration of the slideshow and the duration of the fade. *)
Definition fadeCalls (now total fadeDuration : Qc) : list Gain.Event :=
  let fadeStart := total - fadeDuration in
  [Gain.SetValueAtTime 1 now]
  ++ (if Qcltb 0 fadeStart then [Gain.SetValueAtTime 1 (now + fadeStart)] else [])
  ++ [Gain.LinearRampToValueAtTime (qfrac 1 1000) (now + total)].

(** ** [handleExport] *)


Definition initialAudioState : AudioState :=
  mkAudioState None [] 0 [] false [].

Section HandleExport.

Variable PI : Qc.
Variable slides : list ImageSlide.
Variable settings : SlideshowSettings.
Variable musicUrl : option string.
Variable musicBehavior : MusicBehavior.
Variable isExporting : bool.
Variable canvasContext : bool.
Variable hasMainPlayer : bool.
Variable env : AudioEnv.
Variable decode : string -> option (N * N).


End HandleExport.

(** ** [handlePlayPause]: the audio start offset *)

(** The value assigned to [audioRef.current.currentTime] when playback
    starts. *)
Definition startOffset (currentSlideIndex : nat) (settings : SlideshowSettings)
    (trackDuration : num) : num :=
  let startTime :=
    nmul (ofNat currentSlideIndex)
         (nadd (slideDuration settings) (transitionDuration settings)) in
  if truthy trackDuration && isFinite trackDuration
  then nrem startTime trackDuration
  else Fin 0.

(** [handlePlayPause]: the new [isPlaying] flag and, when the player is
    started with an audio element present, the position it is started at. *)
Definition handlePlayPause (slideCount : nat) (isPlaying hasAudio : bool)
    (currentSlideIndex : nat) (settings : SlideshowSettings)
    (trackDuration : num) : option (bool * option num) :=
  if (slideCount =? 0)%nat then None
  else
    let nextIsPlaying := negb isPlaying in
    Some (nextIsPlaying,
          if hasAudio && nextIsPlaying
          then Some (startOffset currentSlideIndex settings trackDuration)
          else None).

(** ** The motion transform and the cover fit, as specified

    Written from the specification of the motion transform engine, over
    exact rationals, to be compared with [motionParams] and
    [drawSlideWithMotion]. *)

Module Spec.

Record Transform : Type := mkTransform {
  tScale : Qc;
  tDx : Qc;
  tDy : Qc;
  tRotation : Qc
}.

Definition transform (PI : Qc) (m : MotionEffect) (p width height : Qc)
  : Transform :=
  match m with
  | MotionNone => mkTransform 1 0 0 0
  | ZoomIn => mkTransform (1 + p * qfrac 15 100) 0 0 0
  | ZoomOut => mkTransform (qfrac 115 100 - p * qfrac 15 100) 0 0 0
  | PanLeft =>
      mkTransform (qfrac 115 100) ((qfrac 1 2 - p) * qfrac 1 10 * width) 0 0
  | PanRight =>
      mkTransform (qfrac 115 100) ((p - qfrac 1 2) * qfrac 1 10 * width) 0 0
  | PanUp =>
      mkTransform (qfrac 115 100) 0 ((qfrac 1 2 - p) * qfrac 1 10 * height) 0
  | PanDown =>
      mkTransform (qfrac 115 100) 0 ((p - qfrac 1 2) * qfrac 1 10 * height) 0
  | RotateMotion =>
      mkTransform (qfrac 12 10) 0 0 ((p - qfrac 1 2) * qz 2 * (PI / qz 180))
  end.

Record Placement : Type := mkPlacement {
  x : Qc;
  y : Qc;
  renderWidth : Qc;
  renderHeight : Qc
}.

Definition coverFit (imageWidth imageHeight frameWidth frameHeight : Qc)
    (t : Transform) : Placement :=
  let imageAspect := imageWidth / imageHeight in
  let frameAspect := frameWidth / frameHeight in
  if Qcltb frameAspect imageAspect then
    let rh := frameHeight * tScale t in
    let rw := rh * imageAspect in
    mkPlacement ((frameWidth - rw) / qz 2 + tDx t)
                ((frameHeight - rh) / qz 2 + tDy t) rw rh
  else
    let rw := frameWidth * tScale t in
    let rh := rw / imageAspect in
    mkPlacement ((frameWidth - rw) / qz 2 + tDx t)
                ((frameHeight - rh) / qz 2 + tDy t) rw rh.



End Spec.

(** ** What a frame paints *)





(** ** The export of the worked examples

    Three slides, 4 s per slide and a 1 s transition; every image decodes,
    to 1920 x 1080. *)
Definition exampleSlides : list ImageSlide :=
  [ mkSlide "a" "blob:a" ZoomIn;
    mkSlide "b" "blob:b" PanLeft;
    mkSlide "c" "blob:c" RotateMotion ].
Definition exampleSettings : SlideshowSettings :=
  mkSettings (Fin (qz 4)) (Fin (qz 1)) TFade.


(** The timeline as specified, over exact rationals: the time stamp of a
    frame, the index of the slide on display and the time elapsed in its
    period. *)
Module Timeline.

Definition slideIndex (period elapsed : Qc) : Z := qfloor (elapsed / period).

(** The number of frames of an export: the least [k] with
    [k / 30 >= total]. *)
Definition frameCount (total : Qc) : nat := Z.to_nat (qceiling (total * qz 30)).

End Timeline.


(** ** [recorder.onstop]: the end of the export *)

Definition unmuteMainPlayer : M unit :=
  modify (fun s => mkAudioState (exportAudio s) (releasedAudio s)
                     (streamAudioTracks s) (gainCalls s) false (progressLog s)).

(** The part of the [onstop] handler that follows the download: the
    progress text is cleared, the export audio element is paused and
    dropped, the player of the editor, if there is one, is paused, rewound
    and unmuted. *)
Definition recorderOnStop (hasMainPlayer : bool) : M unit :=
  setExportProgress MsgEmpty ;;
  releaseExportAudio ;;
  when hasMainPlayer unmuteMainPlayer.

(** The audio side of a whole export: the set-up, then [onstop]. *)
Definition exportAudioLifecycle (slides : list ImageSlide)
    (settings : SlideshowSettings) (musicBehavior : MusicBehavior)
    (hasMainPlayer : bool) (env : AudioEnv) (musicUrl : option string)
  : M unit :=
  audioSetup slides settings musicBehavior hasMainPlayer env musicUrl ;;
  recorderOnStop hasMainPlayer.

(** ** The editor: slides, playback and their handlers *)

(** [Math.max] of two arguments. *)
Definition nmax (a b : num) : num :=
  match a, b with
  | NaN, _ | _, NaN => NaN
  | _, _ => if nlt a b then b else a
  end.

Definition motionEqb (a b : MotionEffect) : bool :=
  match a, b with
  | MotionNone, MotionNone | ZoomIn, ZoomIn | ZoomOut, ZoomOut
  | PanLeft, PanLeft | PanRight, PanRight | PanUp, PanUp
  | PanDown, PanDown | RotateMotion, RotateMotion => true
  | _, _ => false
  end.

(** The entries [{ id, name }] of the motion picker. *)
Definition motionOptions : list (MotionEffect * string) :=
  [ (MotionNone, "Aucun");
    (ZoomIn, "Zoom Avant");
    (ZoomOut, "Zoom Arrière");
    (PanLeft, "Panoramique Gauche");
    (PanRight, "Panoramique Droite");
    (PanUp, "Panoramique Haut");
    (PanDown, "Panoramique Bas");
    (RotateMotion, "Rotation") ]%string.

(** [getRandomMotion], for the value [random] of [Math.random()].  [None]:
    the array is read outside its bounds and reading [.id] throws. *)
Definition getRandomMotion (random : num) : option MotionEffect :=
  let motions :=
    filter (fun m => negb (motionEqb (fst m) MotionNone)) motionOptions in
  option_map fst
    (index motions (nfloor (nmul random (ofNat (List.length motions))))).

Module App.

(** An uploaded [File]: its name and the URL [URL.createObjectURL] gives
    it. *)
Record File : Type := mkFile {
  fileName : string;
  fileUrl : string
}.

(** The state of the component that the handlers below read and write. *)
Record State : Type := mkState {
  slides : list ImageSlide;
  settings : SlideshowSettings;
  musicUrl : option string;
  musicBehavior : MusicBehavior;
  isPlaying : bool;
  currentSlideIndex : num
}.

Definition initial : State :=
  mkState [] (mkSettings (Fin (qz 4)) (Fin (qz 1)) TFade) None Loop false (Fin 0).

Definition withSlides (st : State) (l : list ImageSlide) : State :=
  mkState l (settings st) (musicUrl st) (musicBehavior st) (isPlaying st)
          (currentSlideIndex st).

(** [advanceSlide]: the updater [(prev + 1) % slides.length]. *)
Definition advanceSlide (st : State) : State :=
  mkState (slides st) (settings st) (musicUrl st) (musicBehavior st)
          (isPlaying st)
          (nrem (nadd (currentSlideIndex st) (Fin 1))
                (ofNat (List.length (slides st)))).

(** The timer of the playback effect: it is armed only while playing more
    than one slide, and then calls [advanceSlide]. *)
Definition timerFires (st : State) : State :=
  if isPlaying st && (1 <? List.length (slides st))%nat
  then advanceSlide st
  else st.

(** The state part of [handlePlayPause]. *)
Definition playPause (st : State) : State :=
  if (List.length (slides st) =? 0)%nat then st
  else mkState (slides st) (settings st) (musicUrl st) (musicBehavior st)
               (negb (isPlaying st)) (currentSlideIndex st).

(** The slides made from the uploaded files, the [k]-th call of
    [Date.now()] being rendered as [stamps k]. *)
Fixpoint uploaded (stamps : nat -> string) (k : nat) (fs : list File)
  : list ImageSlide :=
  match fs with
  | [] => []
  | f :: rest =>
      mkSlide (fileName f ++ "-" ++ stamps k)%string (fileUrl f) ZoomIn
      :: uploaded stamps (S k) rest
  end.

(** [handleImageUpload]: [files] is [event.target.files]. *)
Definition handleImageUpload (files : option (list File))
    (stamps : nat -> string) (st : State) : State :=
  match files with
  | None => st
  | Some fs => withSlides st (slides st ++ uploaded stamps 0 fs)
  end.

(** A string without ["-"], as the decimal rendering of [Date.now()] is. *)
Fixpoint dashFree (s : string) : bool :=
  match s with
  | EmptyString => true
  | String c rest => negb (Ascii.eqb c "-"%char) && dashFree rest
  end.

(** [handleMusicUpload]: [file] is [event.target.files?.[0]]. *)
Definition handleMusicUpload (file : option File) (st : State) : State :=
  match file with
  | None => st
  | Some f =>
      mkState (slides st) (settings st) (Some (fileUrl f)) (musicBehavior st)
              (isPlaying st) (currentSlideIndex st)
  end.

(** [handleSettingsChange], by field. *)
Inductive SettingsChange : Type :=
  | SetSlideDuration (v : num)
  | SetTransitionDuration (v : num)
  | SetTransitionEffect (e : TransitionEffect).

Definition handleSettingsChange (c : SettingsChange) (st : State) : State :=
  let prev := settings st in
  let next :=
    match c with
    | SetSlideDuration v =>
        mkSettings v (transitionDuration prev) (transitionEffect prev)
    | SetTransitionDuration v =>
        mkSettings (slideDuration prev) v (transitionEffect prev)
    | SetTransitionEffect e =>
        mkSettings (slideDuration prev) (transitionDuration prev) e
    end in
  mkState (slides st) next (musicUrl st) (musicBehavior st) (isPlaying st)
          (currentSlideIndex st).

Definition setMotion (m : MotionEffect) (s : ImageSlide) : ImageSlide :=
  mkSlide (id s) (objectUrl s) m.

(** [handleSlideMotionChange]. *)
Definition handleSlideMotionChange (id0 : string) (m : MotionEffect)
    (st : State) : State :=
  withSlides st
    (map (fun s => if String.eqb (id s) id0 then setMotion m s else s)
         (slides st)).

(** [handleRemoveSlide]: the new state and the object URL revoked, if
    any. *)
Definition handleRemoveSlide (id0 : string) (st : State)
  : State * option string :=
  let slideToRemove := find (fun s => String.eqb (id s) id0) (slides st) in
  let newSlides :=
    filter (fun s => negb (String.eqb (id s) id0)) (slides st) in
  let playing :=
    if (List.length newSlides =? 0)%nat then false else isPlaying st in
  let idx :=
    if nge (currentSlideIndex st) (ofNat (List.length newSlides))
    then nmax (Fin 0) (nsub (ofNat (List.length newSlides)) (Fin 1))
    else currentSlideIndex st in
  (mkState newSlides (settings st) (musicUrl st) (musicBehavior st) playing idx,
   option_map objectUrl slideToRemove).

(** The motions drawn for the slides of [l], the [k]-th call of
    [Math.random()] returning [randoms k]; [None] if a draw throws. *)
Fixpoint randomMotions (randoms : nat -> num) (k : nat) (l : list ImageSlide)
  : option (list ImageSlide) :=
  match l with
  | [] => Some []
  | s :: rest =>
      match getRandomMotion (randoms k), randomMotions randoms (S k) rest with
      | Some m, Some rest' => Some (setMotion m s :: rest')
      | _, _ => None
      end
  end.

(** [applyRandomMotionToAll]; an exception leaves the state as it was. *)
Definition applyRandomMotionToAll (randoms : nat -> num) (st : State) : State :=
  match randomMotions randoms 0 (slides st) with
  | Some l => withSlides st l
  | None => st
  end.

(** What the user and the timer can do to the editor. *)
Inductive Action : Type :=
  | Upload (files : option (list File)) (stamps : nat -> string)
  | UploadMusic (file : option File)
  | ChangeSettings (c : SettingsChange)
  | ChangeMotion (id0 : string) (m : MotionEffect)
  | Remove (id0 : string)
  | RandomMotions (randoms : nat -> num)
  | PlayPause
  | SetBehavior (b : MusicBehavior)
  | Tick.

Definition step (st : State) (a : Action) : State :=
  match a with
  | Upload files stamps => handleImageUpload files stamps st
  | UploadMusic file => handleMusicUpload file st
  | ChangeSettings c => handleSettingsChange c st
  | ChangeMotion id0 m => handleSlideMotionChange id0 m st
  | Remove id0 => fst (handleRemoveSlide id0 st)
  | RandomMotions randoms => applyRandomMotionToAll randoms st
  | PlayPause => playPause st
  | SetBehavior b =>
      mkState (slides st) (settings st) (musicUrl st) b (isPlaying st)
              (currentSlideIndex st)
  | Tick => timerFires st
  end.

Definition run (st : State) (actions : list Action) : State :=
  fold_left step actions st.

(** [slides[currentSlideIndex]], the slide the player shows. *)
Definition currentSlide (st : State) : option ImageSlide :=
  index (slides st) (currentSlideIndex st).

(** The index designates a slide, or is 0 when there is none. *)
Definition inBounds (st : State) : Prop :=
  exists i : nat,
    currentSlideIndex st = ofNat i
    /\ ((i < List.length (slides st))%nat \/ (slides st = [] /\ i = 0%nat)).

End App.

(** ** Facts on canonical rationals *)

Section QcFacts.

Lemma Qcltb_lt (a b : Qc) : Qcltb a b = true <-> a < b.
Proof.
  unfold Qcltb. rewrite Qclt_alt. destruct (a ?= b); intuition congruence.
Qed.

Lemma Qcltb_ge (a b : Qc) : Qcltb a b = false <-> b <= a.
Proof.
  split; intro H.
  - apply Qcnot_lt_le. intro L. apply Qcltb_lt in L. congruence.
  - destruct (Qcltb a b) eqn:E; trivial.
    apply Qcltb_lt in E. exfalso. exact (Qcle_not_lt _ _ H E).
Qed.

Lemma Qceqb_eq (a b : Qc) : Qceqb a b = true <-> a = b.
Proof.
  unfold Qceqb. rewrite Qceq_alt. destruct (a ?= b); intuition congruence.
Qed.

Lemma Qceqb_neq (a b : Qc) : Qceqb a b = false <-> a <> b.
Proof.
  rewrite <- Qceqb_eq. destruct (Qceqb a b); intuition congruence.
Qed.

Lemma Qceqb_refl (a : Qc) : Qceqb a a = true.
Proof. now apply Qceqb_eq. Qed.

Lemma this_Q2Qc (q : Q) : (this (Q2Qc q) == q)%Q.
Proof. simpl. apply Qred_correct. Qed.

Lemma this_plus (a b : Qc) : (this (a + b) == this a + this b)%Q.
Proof. apply this_Q2Qc. Qed.

Lemma this_mult (a b : Qc) : (this (a * b) == this a * this b)%Q.
Proof. apply this_Q2Qc. Qed.

Lemma this_opp (a : Qc) : (this (- a) == - this a)%Q.
Proof. apply this_Q2Qc. Qed.

Lemma this_minus (a b : Qc) : (this (a - b) == this a - this b)%Q.
Proof. unfold Qcminus. rewrite this_plus, this_opp. reflexivity. Qed.

Lemma this_inv (a : Qc) : (this (/ a) == / this a)%Q.
Proof. apply this_Q2Qc. Qed.

Lemma this_div (a b : Qc) : (this (a / b) == this a / this b)%Q.
Proof. unfold Qcdiv. rewrite this_mult, this_inv. reflexivity. Qed.

Lemma this_qz (z : Z) : (this (qz z) == inject_Z z)%Q.
Proof. apply this_Q2Qc. Qed.

Lemma this_zero : (this 0 == 0)%Q.
Proof. reflexivity. Qed.

Lemma Qc_neq_this (a : Qc) : a <> 0 -> ~ (this a == 0)%Q.
Proof. intros H E. apply H. apply Qc_is_canon. exact E. Qed.

Lemma Qfloor_qz (z : Z) : qfloor (qz z) = z.
Proof. unfold qfloor. rewrite this_qz. apply Qfloor_Z. Qed.

Lemma qz_lt (a b : Z) : (a < b)%Z <-> qz a < qz b.
Proof. unfold Qclt. rewrite !this_qz, <- Zlt_Qlt. reflexivity. Qed.

Lemma qz_le (a b : Z) : (a <= b)%Z <-> qz a <= qz b.
Proof. unfold Qcle. rewrite !this_qz, <- Zle_Qle. reflexivity. Qed.

Lemma qz_inj (a b : Z) : qz a = qz b -> a = b.
Proof.
  intro H. apply inject_Z_injective. rewrite <- !this_qz, H. reflexivity.
Qed.




End QcFacts.

(** ** Facts on numbers *)

(** Closes an equation between evaluated structures: two canonical
    rationals are equal as soon as they are as fractions. *)
Ltac qc_eq :=
  vm_compute;
  repeat (f_equal; try (apply Qc_is_canon; vm_compute; reflexivity)).

(** Moves an order statement on [Qc] to [Q], where [lra] applies. *)
Ltac qc2q :=
  unfold Qcle, Qclt in *;
  repeat progress
    (rewrite ?this_minus, ?this_plus, ?this_mult, ?this_opp, ?this_qz in *);
  change (this 1) with 1%Q in *; change (this 0) with 0%Q in *.

Lemma ndiv_fin (x y : Qc) : y <> 0 -> ndiv (Fin x) (Fin y) = Fin (x / y).
Proof.
  intro H. simpl. apply Qceqb_neq in H. rewrite H. reflexivity.
Qed.

Lemma nge_fin (x y : Qc) : nge (Fin x) (Fin y) = true <-> y <= x.
Proof.
  unfold nge. simpl. rewrite orb_true_iff, Qcltb_lt, Qceqb_eq. split.
  - intros [H | H].
    + now apply Qclt_le_weak.
    + subst. apply Qcle_refl.
  - intro H. destruct (Qcle_lt_or_eq _ _ H); auto.
Qed.

Lemma nge_fin_false (x y : Qc) : nge (Fin x) (Fin y) = false <-> x < y.
Proof.
  split; intro H.
  - apply Qcnot_le_lt. intro L. apply nge_fin in L. congruence.
  - destruct (nge (Fin x) (Fin y)) eqn:E; trivial.
    apply nge_fin in E. exfalso. exact (Qclt_not_le _ _ H E).
Qed.

Lemma qz_neq0 (z : Z) : z <> 0%Z -> qz z <> 0.
Proof. intros H E. apply H. apply qz_inj. exact E. Qed.

Lemma qz_plus (a b : Z) : qz (a + b) = qz a + qz b.
Proof.
  apply Qc_is_canon. rewrite this_plus, !this_qz, inject_Z_plus. reflexivity.
Qed.

Lemma qz_mult (a b : Z) : qz (a * b) = qz a * qz b.
Proof.
  apply Qc_is_canon. rewrite this_mult, !this_qz, inject_Z_mult. reflexivity.
Qed.

Lemma index_qz {A : Type} (xs : list A) (z : Z) :
  (0 <= z)%Z -> index xs (Fin (qz z)) = nth_error xs (Z.to_nat z).
Proof.
  intro H. unfold index. rewrite Qfloor_qz, Qceqb_refl.
  apply Z.leb_le in H. rewrite H. reflexivity.
Qed.

Lemma index_ofNat {A : Type} (xs : list A) (n : nat) :
  index xs (ofNat n) = nth_error xs n.
Proof.
  unfold ofNat, ofZ. rewrite index_qz by lia. now rewrite Nat2Z.id.
Qed.

(** For a non-negative dividend and a positive divisor the remainder is the
    dividend minus the divisor times the floor of the quotient. *)
Lemma Qcdiv_nonneg (x y : Qc) : 0 <= x -> 0 < y -> 0 <= x / y.
Proof.
  intros Hx Hy. unfold Qcle, Qclt in *. rewrite this_div.
  apply Qle_shift_div_l; trivial.
  setoid_replace (0 * this y)%Q with 0%Q by ring. exact Hx.
Qed.

Lemma qtrunc_nonneg (q : Qc) : 0 <= q -> qtrunc q = qfloor q.
Proof.
  intro H. unfold qtrunc. apply Qcltb_ge in H. now rewrite H.
Qed.

Lemma nrem_fin (x y : Qc) :
  0 <= x -> 0 < y ->
  nrem (Fin x) (Fin y) = Fin (x - y * qz (qfloor (x / y))).
Proof.
  intros Hx Hy. simpl.
  assert (Hne : y <> 0) by (intro E; subst; discriminate).
  apply Qceqb_neq in Hne. rewrite Hne.
  rewrite qtrunc_nonneg by now apply Qcdiv_nonneg. reflexivity.
Qed.


(** ** The motion transform and the placement *)

Lemma Qcdiv_neq0 (a b : Qc) : a <> 0 -> b <> 0 -> a / b <> 0.
Proof.
  intros Ha Hb E. apply Ha.
  rewrite <- (Qcmult_div_r a b Hb), E. ring.
Qed.

Lemma qz_N_neq0 (n : N) : (0 < n)%N -> qz (Z.of_N n) <> 0.
Proof. intro H. apply qz_neq0. lia. Qed.

Lemma motionParams_fin (PI : Qc) (m : MotionEffect) (p w h : Qc) :
  let t := Spec.transform PI m p w h in
  motionParams PI m (Fin p) (Fin w) (Fin h)
  = mkParams (Fin (Spec.tScale t)) (Fin (Spec.tDx t)) (Fin (Spec.tDy t))
             (Fin (Spec.tRotation t)).
Proof.
  destruct m; unfold motionParams, Spec.transform; cbn [Spec.tScale Spec.tDx Spec.tDy Spec.tRotation];
    rewrite ?ndiv_fin by (apply qz_neq0; lia);
    cbn [nadd nsub nmul nneg]; f_equal; f_equal; ring.
Qed.

Lemma renderSize_fin (img : HTMLImageElement) (w h sc : Qc) :
  h <> 0 -> (0 < naturalWidth img)%N -> (0 < naturalHeight img)%N ->
  let ia := qz (Z.of_N (naturalWidth img)) / qz (Z.of_N (naturalHeight img)) in
  renderSize img (Fin w) (Fin h) (Fin sc)
  = if Qcltb (w / h) ia
    then (Fin (h * sc * ia), Fin (h * sc))
    else (Fin (w * sc), Fin (w * sc / ia)).
Proof.
  intros Hh Hw Hn ia. unfold renderSize, ofN, ofZ, ngt.
  rewrite (ndiv_fin _ _ (qz_N_neq0 _ Hn)), (ndiv_fin _ _ Hh).
  fold ia. cbn [nlt]. destruct (Qcltb (w / h) ia).
  - reflexivity.
  - cbn [nmul]. rewrite ndiv_fin; trivial.
    apply Qcdiv_neq0; now apply qz_N_neq0.
Qed.


Lemma drawSlideWithMotion_fin
    (PI : Qc) (slide : ImageSlide) (img : HTMLImageElement) (p w h : Qc) :
  h <> 0 -> (0 < naturalWidth img)%N -> (0 < naturalHeight img)%N ->
  let t := Spec.transform PI (motion slide) p w h in
  let pl := Spec.coverFit (qz (Z.of_N (naturalWidth img)))
                          (qz (Z.of_N (naturalHeight img))) w h t in
  drawSlideWithMotion PI (Fin w) (Fin h) slide img (Fin p)
  = [ Save;
      SetFillStyle "black";
      FillRect (Fin 0) (Fin 0) (Fin w) (Fin h);
      Translate (Fin (w / qz 2)) (Fin (h / qz 2));
      Rotate (Fin (Spec.tRotation t));
      Translate (Fin (- w / qz 2)) (Fin (- h / qz 2));
      DrawImage img (Fin (Spec.x pl)) (Fin (Spec.y pl))
                (Fin (Spec.renderWidth pl)) (Fin (Spec.renderHeight pl));
      Restore ].
Proof.
  intros Hh Hw Hn t pl.
  unfold drawSlideWithMotion.
  rewrite motionParams_fin. fold t. cbn [scale dx dy rotation].
  rewrite (renderSize_fin img w h _ Hh Hw Hn).
  unfold pl, Spec.coverFit.
  destruct (Qcltb _ _);
    cbn [Spec.x Spec.y Spec.renderWidth Spec.renderHeight nsub nadd nneg];
    rewrite !ndiv_fin by (apply qz_neq0; lia); reflexivity.
Qed.

(** C2: on finite inputs, for an image of positive natural size and a frame
    of non-zero height, [drawSlideWithMotion] computes exactly the
    transform of the specification for each of the eight motion kinds
    (none: scale 1, no offset, no rotation; zoom-in: scale 1 + 0.15 p;
    zoom-out: 1.15 - 0.15 p; the four pans: scale 1.15 and an offset of
    (0.5 - p) or (p - 0.5) times a tenth of the width or height; rotate:
    scale 1.2 and (p - 0.5) * 2 degrees in radians), and draws the image
    cover-fitted, centred and offset by (dx, dy), after the black fill and
    the rotation about the centre of the frame.  The progress [p] is
    arbitrary, in particular in [0, 1]. *)
Theorem C2_motion_transform_and_cover_fit
    (PI : Qc) (slide : ImageSlide) (img : HTMLImageElement) (p w h : Qc) :
  h <> 0 -> (0 < naturalWidth img)%N -> (0 < naturalHeight img)%N ->
  let t := Spec.transform PI (motion slide) p w h in
  let pl := Spec.coverFit (qz (Z.of_N (naturalWidth img)))
                          (qz (Z.of_N (naturalHeight img))) w h t in
  motionParams PI (motion slide) (Fin p) (Fin w) (Fin h)
  = mkParams (Fin (Spec.tScale t)) (Fin (Spec.tDx t)) (Fin (Spec.tDy t))
             (Fin (Spec.tRotation t))
  /\ drawSlideWithMotion PI (Fin w) (Fin h) slide img (Fin p)
     = [ Save;
         SetFillStyle "black";
         FillRect (Fin 0) (Fin 0) (Fin w) (Fin h);
         Translate (Fin (w / qz 2)) (Fin (h / qz 2));
         Rotate (Fin (Spec.tRotation t));
         Translate (Fin (- w / qz 2)) (Fin (- h / qz 2));
         DrawImage img (Fin (Spec.x pl)) (Fin (Spec.y pl))
                   (Fin (Spec.renderWidth pl)) (Fin (Spec.renderHeight pl));
         Restore ].
Proof.
  intros Hh Hw Hn t pl. split.
  - apply motionParams_fin.
  - now apply drawSlideWithMotion_fin.
Qed.

(** The theorem at a 1920 x 1080 image panned left in the 1280 x 720
    frame, half-way through the slide. *)
Lemma C2_motion_transform_and_cover_fit_witness :
  drawSlideWithMotion (qfrac 355 113) (Fin (qz 1280)) (Fin (qz 720))
    (mkSlide "a" "blob:a" PanLeft) (mkImage "blob:a" 1920 1080 true)
    (Fin (qfrac 1 2))
  = [ Save;
      SetFillStyle "black";
      FillRect (Fin 0) (Fin 0) (Fin (qz 1280)) (Fin (qz 720));
      Translate (Fin (qz 640)) (Fin (qz 360));
      Rotate (Fin 0);
      Translate (Fin (qz (-640))) (Fin (qz (-360)));
      DrawImage (mkImage "blob:a" 1920 1080 true)
                (Fin (qz (-96))) (Fin (qz (-54))) (Fin (qz 1472)) (Fin (qz 828));
      Restore ].
Proof.
  pose proof (C2_motion_transform_and_cover_fit (qfrac 355 113)
                (mkSlide "a" "blob:a" PanLeft) (mkImage "blob:a" 1920 1080 true)
                (qfrac 1 2) (qz 1280) (qz 720)) as H.
  destruct H as [_ H].
  - apply qz_neq0. lia.
  - reflexivity.
  - reflexivity.
  - rewrite H. qc_eq.
Defined.

(** ** The scheduler *)

Lemma nge_fin_negb (x y : Qc) : nge (Fin x) (Fin y) = negb (Qcltb x y).
Proof.
  destruct (Qcltb x y) eqn:E; simpl.
  - apply nge_fin_false. now apply Qcltb_lt.
  - apply nge_fin. now apply Qcltb_ge.
Qed.




Section Scheduler.

Variable slides : list ImageSlide.
Variables s t : Qc.
Variable eff : TransitionEffect.

Let settings := mkSettings (Fin s) (Fin t) eff.
Let n := Z.of_nat (List.length slides).

Hypothesis period_pos : 0 < s + t.

Let idx := Timeline.slideIndex (s + t).









End Scheduler.












(** ** What a frame paints *)











(** ** The export loop *)



Section Loop.

Variable PI : Qc.
Variable slides : list ImageSlide.
Variable loadedImages : list HTMLImageElement.
Variables s t : Qc.
Variable eff : TransitionEffect.

Let settings := mkSettings (Fin s) (Fin t) eff.
Let total := qz (Z.of_nat (List.length slides)) * (s + t).
Let N := Timeline.frameCount total.

Hypothesis period_pos : 0 < s + t.
Hypothesis images_loaded : List.length loadedImages = List.length slides.



End Loop.

Lemma nth_error_map_seq {A : Type} (f : nat -> A) (len k : nat) :
  (k < len)%nat -> nth_error (map f (seq 0 len)) k = Some (f k).
Proof.
  intro H. rewrite nth_error_map, nth_error_seq.
  apply Nat.ltb_lt in H. rewrite H. reflexivity.
Qed.




(** ** Transition frames and placeholder images *)






(** ** Audio *)






Lemma schedule_fin (mk : Qc -> Qc -> Gain.Event) (v q : Qc) (st : AudioState) :
  0 <= q ->
  schedule mk v (Fin q) st
  = (mkAudioState (exportAudio st) (releasedAudio st) (streamAudioTracks st)
                  (gainCalls st ++ [mk v q]) (mainPlayerMuted st)
                  (progressLog st),
     Normal tt).
Proof.
  intro H. unfold schedule. apply Qcltb_ge in H. rewrite H. reflexivity.
Qed.

Lemma qmin_nonneg (a b : Qc) : 0 <= a -> 0 <= b -> 0 <= qmin a b.
Proof. intros Ha Hb. unfold qmin. now destruct (Qcltb b a). Qed.

Lemma nmin_fin (a b : Qc) : nmin (Fin a) (Fin b) = Fin (qmin a b).
Proof. unfold nmin, qmin. cbn [nlt]. now destruct (Qcltb b a). Qed.

Lemma Qcplus_le_l (a x : Qc) : 0 <= x -> a <= a + x.
Proof. intro H. qc2q. lra. Qed.

Section Fade.

Variable slides : list ImageSlide.
Variables s t now : Qc.
Variable eff : TransitionEffect.
Variable env : AudioEnv.

Let settings := mkSettings (Fin s) (Fin t) eff.
Let total := qz (Z.of_nat (List.length slides)) * (s + t).
Let fadeDuration := qmin (qz 2) t.
Let fadeStart := total - fadeDuration.

Hypothesis period_pos : 0 < s + t.
Hypothesis transition_nonneg : 0 <= t.
Hypothesis now_nonneg : 0 <= now.
Hypothesis context_time : contextTime env = Fin now.

Lemma total_nonneg : 0 <= total.
Proof.
  unfold total.
  assert (H : 0 <= qz (Z.of_nat (List.length slides)))
    by (change 0 with (qz 0); apply (proj1 (qz_le _ _)); lia).
  replace 0 with (0 * (s + t)) by ring.
  apply Qcmult_le_compat_r; trivial. now apply Qclt_le_weak.
Qed.

Lemma fadeDuration_nonneg : 0 <= fadeDuration.
Proof. apply qmin_nonneg; trivial. discriminate. Qed.

Let calls := fadeCalls now total fadeDuration.

Lemma planFade_planned :
  nlt (Fin total) (duration env) = true ->
  planFade slides settings Fade env initialAudioState
  = (mkAudioState None [] 0 calls false [], Normal tt).
Proof.
  intro Hplan. unfold planFade.
  change (nmul (ofNat (List.length slides))
               (nadd (slideDuration settings) (transitionDuration settings)))
    with (Fin total).
  rewrite Hplan. cbn [behaviorIsFade andb when].
  cbn [transitionDuration settings]. rewrite nmin_fin. fold fadeDuration.
  cbn [nsub nneg nadd]. fold (total - fadeDuration). fold fadeStart.
  rewrite context_time. cbn [nadd ngt nlt].
  pose proof total_nonneg as HT.
  unfold bind at 1. rewrite (schedule_fin _ _ _ _ now_nonneg).
  unfold calls, fadeCalls, initialAudioState; fold fadeStart.
  cbn [exportAudio releasedAudio streamAudioTracks gainCalls mainPlayerMuted
       progressLog app].
  destruct (Qcltb 0 fadeStart) eqn:Hfs; cbn [when].
  - apply Qcltb_lt in Hfs.
    unfold bind at 1. rewrite schedule_fin.
    + cbn [exportAudio releasedAudio streamAudioTracks gainCalls mainPlayerMuted
           progressLog app].
      rewrite schedule_fin; [reflexivity|].
      qc2q. lra.
    + qc2q. lra.
  - unfold bind, ret. rewrite schedule_fin; [reflexivity|].
    qc2q. lra.
Qed.

Lemma timeline_fadeCalls : Gain.timeline calls = calls.
Proof.
  pose proof total_nonneg as HT. pose proof fadeDuration_nonneg as HF.
  assert (H1 : Qcltb (now + total) now = false)
    by (apply Qcltb_ge; qc2q; lra).
  unfold calls, fadeCalls, Gain.timeline; fold fadeStart.
  destruct (Qcltb 0 fadeStart) eqn:Hfs; cbn [app fold_left Gain.insert Gain.time].
  - apply Qcltb_lt in Hfs.
    assert (H2 : Qcltb (now + fadeStart) now = false)
      by (apply Qcltb_ge; qc2q; lra).
    assert (H3 : Qcltb (now + total) (now + fadeStart) = false)
      by (apply Qcltb_ge; unfold fadeStart; qc2q; lra).
    rewrite H2. cbn [Gain.insert Gain.time]. rewrite H1, H3. reflexivity.
  - rewrite H1. reflexivity.
Qed.

Lemma gain_held (tau : Qc) :
  0 <= tau -> tau < fadeStart -> Gain.valueAt now calls (now + tau) = 1.
Proof.
  intros H0 Hlt. unfold Gain.valueAt. rewrite timeline_fadeCalls.
  unfold calls, fadeCalls; fold fadeStart.
  assert (Hfs : Qcltb 0 fadeStart = true)
    by (apply Qcltb_lt; eapply Qcle_lt_trans; eassumption).
  rewrite Hfs. cbn [app Gain.valueFrom].
  assert (H1 : Qcltb (now + tau) now = false) by (apply Qcltb_ge; qc2q; lra).
  assert (H2 : Qcltb (now + tau) (now + fadeStart) = true)
    by (apply Qcltb_lt; qc2q; lra).
  rewrite H1, H2. reflexivity.
Qed.

Lemma gain_ramp_late (tau : Qc) :
  0 < fadeStart -> fadeStart <= tau -> tau < total ->
  Gain.valueAt now calls (now + tau)
  = 1 + (qfrac 1 1000 - 1) * ((tau - fadeStart) / fadeDuration).
Proof.
  intros Hfs Hge Hlt. unfold Gain.valueAt. rewrite timeline_fadeCalls.
  unfold calls, fadeCalls; fold fadeStart. apply Qcltb_lt in Hfs. rewrite Hfs. apply Qcltb_lt in Hfs.
  cbn [app Gain.valueFrom].
  assert (H1 : Qcltb (now + tau) now = false) by (apply Qcltb_ge; qc2q; lra).
  assert (H2 : Qcltb (now + tau) (now + fadeStart) = false)
    by (apply Qcltb_ge; qc2q; lra).
  assert (H3 : Qcltb (now + tau) (now + total) = true)
    by (apply Qcltb_lt; qc2q; lra).
  rewrite H1, H2, H3. unfold Gain.defaultValue.
  replace (now + tau - (now + fadeStart)) with (tau - fadeStart) by ring.
  replace (now + total - (now + fadeStart)) with fadeDuration
    by (unfold fadeStart; ring).
  reflexivity.
Qed.

Lemma gain_ramp_whole (tau : Qc) :
  fadeStart <= 0 -> 0 <= tau -> tau < total ->
  Gain.valueAt now calls (now + tau)
  = 1 + (qfrac 1 1000 - 1) * (tau / total).
Proof.
  intros Hfs Hge Hlt. unfold Gain.valueAt. rewrite timeline_fadeCalls.
  unfold calls, fadeCalls; fold fadeStart.
  assert (Hb : Qcltb 0 fadeStart = false) by now apply Qcltb_ge.
  rewrite Hb. cbn [app Gain.valueFrom].
  assert (H1 : Qcltb (now + tau) now = false) by (apply Qcltb_ge; qc2q; lra).
  assert (H3 : Qcltb (now + tau) (now + total) = true)
    by (apply Qcltb_lt; qc2q; lra).
  rewrite H1, H3. unfold Gain.defaultValue.
  replace (now + tau - now) with tau by ring.
  replace (now + total - now) with total by ring.
  reflexivity.
Qed.

Lemma gain_floor (tau : Qc) :
  total <= tau -> Gain.valueAt now calls (now + tau) = qfrac 1 1000.
Proof.
  intros Hge. unfold Gain.valueAt. rewrite timeline_fadeCalls.
  pose proof total_nonneg as HT. pose proof fadeDuration_nonneg as HF.
  unfold calls, fadeCalls; fold fadeStart.
  assert (H1 : Qcltb (now + tau) now = false) by (apply Qcltb_ge; qc2q; lra).
  assert (H2 : Qcltb (now + tau) (now + fadeStart) = false)
    by (apply Qcltb_ge; unfold fadeStart; qc2q; lra).
  assert (H3 : Qcltb (now + tau) (now + total) = false)
    by (apply Qcltb_ge; qc2q; lra).
  destruct (Qcltb 0 fadeStart); cbn [app Gain.valueFrom];
    rewrite ?H1, ?H2, ?H3; reflexivity.
Qed.

End Fade.

(** C5, as amended: in loop mode no gain event is scheduled (the gain
    stays at its default 1) and the export audio element loops.  In
    fade-out mode the envelope is planned exactly when
    [totalSlideshowDuration < trackDuration] holds as a comparison of
    numbers: never for a NaN duration, always for an infinite one.  When
    planned, with [fadeDuration = min (2, transitionDuration)] and
    [fadeStart = totalSlideshowDuration - fadeDuration], the gain is 1 from
    0 until [fadeStart], then ramps linearly from 1 to 0.001, reached at
    [totalSlideshowDuration] and kept afterwards; when [fadeStart <= 0] the
    ramp spans the whole duration from 0.  Times are counted from the
    context time at which the plan is made. *)
Theorem C5_fade_envelope
    (slides : list ImageSlide) (s t now : Qc) (eff : TransitionEffect)
    (env : AudioEnv) :
  0 < s + t -> 0 <= t -> 0 <= now -> contextTime env = Fin now ->
  let settings := mkSettings (Fin s) (Fin t) eff in
  let total := qz (Z.of_nat (List.length slides)) * (s + t) in
  let fadeDuration := qmin (qz 2) t in
  let fadeStart := total - fadeDuration in
  let calls := fadeCalls now total fadeDuration in
  let planned := nlt (Fin total) (duration env) in
  planFade slides settings Loop env initialAudioState
  = (initialAudioState, Normal tt)
  /\ (forall url hasMainPlayer,
        contextConstructs env = true -> readiness env = CanPlayThrough ->
        graphConstructs env = true ->
        audioSetup slides settings Loop hasMainPlayer env (Some url)
                   initialAudioState
        = (mkAudioState (Some (mkAudio url true (Fin 0) false)) []
                        (if destinationHasTrack env then 1 else 0) []
                        hasMainPlayer [],
           Normal tt))
  /\ (planned = true
      <-> duration env = Inf true
          \/ exists d, duration env = Fin d /\ total < d)
  /\ (planned = false ->
      planFade slides settings Fade env initialAudioState
      = (initialAudioState, Normal tt))
  /\ (planned = true ->
      planFade slides settings Fade env initialAudioState
      = (mkAudioState None [] 0 calls false [], Normal tt)
      /\ (forall tau, 0 <= tau -> tau < fadeStart ->
            Gain.valueAt now calls (now + tau) = 1)
      /\ (0 < fadeStart -> forall tau, fadeStart <= tau -> tau < total ->
            Gain.valueAt now calls (now + tau)
            = 1 + (qfrac 1 1000 - 1) * ((tau - fadeStart) / fadeDuration))
      /\ (fadeStart <= 0 -> forall tau, 0 <= tau -> tau < total ->
            Gain.valueAt now calls (now + tau)
            = 1 + (qfrac 1 1000 - 1) * (tau / total))
      /\ (forall tau, total <= tau ->
            Gain.valueAt now calls (now + tau) = qfrac 1 1000)).
Proof.
  intros Hp Ht Hnow Hctx settings total fadeDuration fadeStart calls planned.
  split; [reflexivity|]. split; [|split; [|split]].
  - intros url hasMainPlayer Hc Hr Hg.
    unfold audioSetup, audioTry, bind, guard, setExportAudio, updateExportAudio,
      modify, ret, when, planFade.
    rewrite Hc, Hr, Hg. cbn.
    destruct (destinationHasTrack env), hasMainPlayer; reflexivity.
  - unfold planned. destruct (duration env) as [d | [|] |]; cbn [nlt].
    + rewrite Qcltb_lt. split.
      * intro H. right. eauto.
      * intros [H | (d' & H & Hlt)]; [discriminate|]. now injection H as ->.
    + split; auto.
    + split; [discriminate|]. intros [H | (d' & H & _)]; discriminate.
    + split; [discriminate|]. intros [H | (d' & H & _)]; discriminate.
  - intro Hno. unfold planFade.
    change (nmul (ofNat (List.length slides))
                 (nadd (slideDuration settings) (transitionDuration settings)))
      with (Fin total).
    fold planned. rewrite Hno. reflexivity.
  - intro Hyes. split; [|split; [|split; [|split]]].
    + now apply planFade_planned.
    + intros tau. now apply gain_held.
    + intros Hfs tau. now apply gain_ramp_late.
    + intros Hfs tau. now apply gain_ramp_whole.
    + intros tau. now apply gain_floor.
Qed.

(** The worked example: a slideshow of 10 s on a track of 20 s with a 1 s
    transition fades over the last second: the gain is 1 before 9 s, half-way
    down at 9.5 s and 0.001 at 10 s. *)
Lemma C5_fade_envelope_witness :
  let slides := [mkSlide "a" "blob:a" ZoomIn; mkSlide "b" "blob:b" ZoomOut] in
  let env := mkAudioEnv true CanPlayThrough true true (Fin (qz 20)) (Fin 0) in
  let calls :=
    [ Gain.SetValueAtTime 1 0;
      Gain.SetValueAtTime 1 (qz 9);
      Gain.LinearRampToValueAtTime (qfrac 1 1000) (qz 10) ] in
  gainCalls (fst (planFade slides exampleSettings Fade env initialAudioState))
  = calls
  /\ Gain.valueAt 0 calls (qz 5) = 1
  /\ Gain.valueAt 0 calls (qfrac 19 2) = qfrac 1001 2000
  /\ Gain.valueAt 0 calls (qz 10) = qfrac 1 1000.
Proof.
  intros slides env calls.
  assert (Hp : 0 < qz 4 + qz 1) by reflexivity.
  assert (Ht : 0 <= qz 1) by discriminate.
  assert (Hnow : 0 <= 0) by discriminate.
  destruct (C5_fade_envelope slides (qz 4) (qz 1) 0 TFade env Hp Ht Hnow eq_refl)
    as (_ & _ & _ & _ & H).
  destruct H as (Hplan & Hheld & Hramp & _ & Hfloor); [reflexivity|].
  assert (Hcalls : fadeCalls 0 (qz (Z.of_nat (List.length slides)) * (qz 4 + qz 1))
                             (qmin (qz 2) (qz 1)) = calls) by qc_eq.
  rewrite Hcalls in *.
  split; [|split; [|split]].
  - unfold exampleSettings. rewrite Hplan. reflexivity.
  - replace (qz 5) with (0 + qz 5) by ring. apply Hheld.
    + discriminate.
    + vm_compute. reflexivity.
  - replace (qfrac 19 2) with (0 + qfrac 19 2) by ring. rewrite Hramp.
    + apply Qc_is_canon. vm_compute. reflexivity.
    + vm_compute. reflexivity.
    + vm_compute. discriminate.
    + vm_compute. reflexivity.
  - replace (qz 10) with (0 + qz 10) by ring. apply Hfloor.
    vm_compute. discriminate.
Defined.

(** C5 as stated fails for a track of infinite duration, which is not
    finite: in fade-out mode the envelope is planned all the same. *)
Lemma C5_counterexample :
  let env := mkAudioEnv true CanPlayThrough true true (Inf true) (Fin 0) in
  isFinite (duration env) = false
  /\ gainCalls (fst (planFade exampleSlides exampleSettings Fade env
                              initialAudioState))
     = [ Gain.SetValueAtTime 1 0;
         Gain.SetValueAtTime 1 (qz 14);
         Gain.LinearRampToValueAtTime (qfrac 1 1000) (qz 15) ].
Proof.
  split; [reflexivity|]. qc_eq.
Qed.

(** ** The editor *)

Lemma ofNat_S (i : nat) : nadd (ofNat i) (Fin 1) = ofNat (S i).
Proof.
  unfold ofNat, ofZ. cbn [nadd]. f_equal.
  rewrite Nat2Z.inj_succ. unfold Z.succ. rewrite qz_plus. reflexivity.
Qed.

Lemma ofNat_inj (a b : nat) : ofNat a = ofNat b -> a = b.
Proof.
  unfold ofNat, ofZ. intro H.
  apply (f_equal (fun x => match x with Fin q => q | _ => 0 end)) in H.
  apply Nat2Z.inj, qz_inj, H.
Qed.

Lemma qz_opp (a : Z) : qz (- a) = - qz a.
Proof.
  apply Qc_is_canon. rewrite this_opp, !this_qz, inject_Z_opp. reflexivity.
Qed.

Lemma qfloor_div_Z (a b : Z) : qfloor (qz a / qz b) = (a / b)%Z.
Proof.
  unfold qfloor. rewrite this_div, !this_qz. symmetry. apply Zdiv_Qdiv.
Qed.

(** The remainder of two naturals is their [mod]. *)
Lemma nrem_ofNat (a b : nat) :
  (0 < b)%nat -> nrem (ofNat a) (ofNat b) = ofNat (a mod b).
Proof.
  intro Hb. unfold ofNat, ofZ.
  rewrite nrem_fin.
  - f_equal. rewrite qfloor_div_Z, Nat2Z.inj_mod, Z.mod_eq by lia.
    unfold Z.sub. rewrite qz_plus, qz_opp, qz_mult. reflexivity.
  - change 0 with (qz 0). apply (proj1 (qz_le _ _)). lia.
  - change 0 with (qz 0). apply (proj1 (qz_lt _ _)). lia.
Qed.

Lemma nge_ofNat (a b : nat) : nge (ofNat a) (ofNat b) = (b <=? a)%nat.
Proof.
  unfold ofNat, ofZ. rewrite nge_fin_negb.
  destruct (b <=? a)%nat eqn:E.
  - apply Nat.leb_le in E. apply negb_true_iff, Qcltb_ge.
    apply (proj1 (qz_le _ _)). lia.
  - apply Nat.leb_gt in E. apply negb_false_iff, Qcltb_lt.
    apply (proj1 (qz_lt _ _)). lia.
Qed.

Lemma nmax_pred (n : nat) :
  nmax (Fin 0) (nsub (ofNat n) (Fin 1)) = ofNat (n - 1).
Proof.
  unfold ofNat, ofZ. cbn [nsub nneg nadd nmax nlt].
  destruct n as [|n].
  - reflexivity.
  - replace (S n - 1)%nat with n by lia.
    assert (E : qz (Z.of_nat (S n)) + - (1) = qz (Z.of_nat n)).
    { rewrite Nat2Z.inj_succ. unfold Z.succ. rewrite qz_plus.
      change (qz 1) with 1. ring. }
    rewrite E.
    destruct (Qcltb 0 (qz (Z.of_nat n))) eqn:L; trivial.
    apply Qcltb_ge in L. f_equal. apply Qcle_antisym; trivial.
    change 0 with (qz 0). apply (proj1 (qz_le _ _)). lia.
Qed.




Lemma advanceSlide_step (st : App.State) (i : nat) :
  App.currentSlideIndex st = ofNat i ->
  ((0 < List.length (App.slides st))%nat ->
   App.currentSlideIndex (App.advanceSlide st)
   = ofNat ((i + 1) mod List.length (App.slides st)))
  /\ App.slides (App.advanceSlide st) = App.slides st.
Proof.
  intro Hi. unfold App.advanceSlide.
  cbn [App.currentSlideIndex App.slides]. rewrite Hi, ofNat_S. split; trivial.
  intro Hlen. rewrite nrem_ofNat by exact Hlen. now rewrite Nat.add_1_r.
Qed.

(** X2: [advanceSlide] wraps around: from the index [i] of a non-empty slide
    list it moves to [(i + 1) mod length], again the index of a slide; on an
    empty list the updater would store NaN. *)
Theorem advanceSlide_wraps (st : App.State) (i : nat) :
  App.currentSlideIndex st = ofNat i ->
  (App.slides st <> [] ->
   App.currentSlideIndex (App.advanceSlide st)
   = ofNat ((i + 1) mod List.length (App.slides st))
   /\ ((i + 1) mod List.length (App.slides st) < List.length (App.slides st))%nat)
  /\ (App.slides st = [] -> App.currentSlideIndex (App.advanceSlide st) = NaN).
Proof.
  intro Hi. unfold App.advanceSlide.
  cbn [App.currentSlideIndex App.slides]. rewrite Hi, ofNat_S. split.
  - intro Hne.
    assert (Hlen : (0 < List.length (App.slides st))%nat)
      by (destruct (App.slides st); [contradiction | cbn; lia]).
    rewrite nrem_ofNat by exact Hlen. rewrite Nat.add_1_r. split; trivial.
    apply Nat.mod_upper_bound. lia.
  - intro He. rewrite He. reflexivity.
Qed.

Lemma advanceSlide_wraps_witness :
  App.currentSlideIndex
    (App.advanceSlide
       (App.mkState exampleSlides exampleSettings None Loop true (ofNat 2)))
  = ofNat 0.
Proof.
  destruct (advanceSlide_wraps
              (App.mkState exampleSlides exampleSettings None Loop true (ofNat 2))
              2 eq_refl) as [H _].
  destruct H as [H _]; [discriminate|]. exact H.
Defined.

Lemma advance_iter (st : App.State) (i k : nat) :
  (i < List.length (App.slides st))%nat ->
  App.currentSlideIndex st = ofNat i ->
  App.slides (Nat.iter k App.advanceSlide st) = App.slides st
  /\ App.currentSlideIndex (Nat.iter k App.advanceSlide st)
     = ofNat ((i + k) mod List.length (App.slides st)).
Proof.
  intros Hlt Hi.
  induction k as [|k [IHs IHi]].
  - cbn [Nat.iter]. split; trivial. rewrite Nat.add_0_r.
    now rewrite Nat.mod_small.
  - rewrite Nat.iter_succ.
    destruct (advanceSlide_step (Nat.iter k App.advanceSlide st) _ IHi) as [H Hs].
    rewrite IHs in H, Hs. split; [exact Hs|]. rewrite H by lia.
    f_equal. rewrite Nat.Div0.add_mod_idemp_l. f_equal. lia.
Qed.

(** X3: Advancing as many times as there are slides comes back to the slide
    one started from: the player cycles through the slides in order. *)
Theorem advanceSlide_cycles (st : App.State) (i : nat) :
  (i < List.length (App.slides st))%nat ->
  App.currentSlideIndex st = ofNat i ->
  App.currentSlideIndex
    (Nat.iter (List.length (App.slides st)) App.advanceSlide st)
  = ofNat i
  /\ forall k, (k < List.length (App.slides st))%nat ->
       App.currentSlideIndex (Nat.iter k App.advanceSlide st)
       = ofNat ((i + k) mod List.length (App.slides st)).
Proof.
  intros Hlt Hi. split.
  - destruct (advance_iter st i (List.length (App.slides st)) Hlt Hi) as [_ H].
    rewrite H. f_equal.
    rewrite <- Nat.Div0.add_mod_idemp_r, Nat.Div0.mod_same, Nat.add_0_r.
    now apply Nat.mod_small.
  - intros k _. now destruct (advance_iter st i k Hlt Hi).
Qed.

Lemma advanceSlide_cycles_witness :
  App.currentSlideIndex
    (Nat.iter 3 App.advanceSlide
       (App.mkState exampleSlides exampleSettings None Loop true (ofNat 1)))
  = ofNat 1.
Proof.
  assert (Hlt : (1 < List.length exampleSlides)%nat) by (cbn; lia).
  destruct (advanceSlide_cycles
              (App.mkState exampleSlides exampleSettings None Loop true (ofNat 1))
              1 Hlt eq_refl) as [H _].
  exact H.
Defined.

Lemma removeSlide_index (id0 : string) (st : App.State) (i : nat) :
  App.currentSlideIndex st = ofNat i ->
  let st' := fst (App.handleRemoveSlide id0 st) in
  let n' := List.length (App.slides st') in
  App.currentSlideIndex st'
  = ofNat (if (n' <=? i)%nat then n' - 1 else i).
Proof.
  intros Hi st' n'. unfold st', App.handleRemoveSlide in *.
  cbn [fst App.currentSlideIndex App.slides] in *.
  rewrite Hi, nge_ofNat, nmax_pred. fold n'.
  now destruct (n' <=? i)%nat.
Qed.

(** X4: [handleRemoveSlide] keeps the current index on a slide: whatever the
    index was, after the removal it is below the number of slides left, or
    0 when none is left, in which case playback is stopped. *)
Theorem handleRemoveSlide_index_in_bounds
    (id0 : string) (st : App.State) (i : nat) :
  App.currentSlideIndex st = ofNat i ->
  let st' := fst (App.handleRemoveSlide id0 st) in
  exists i',
    App.currentSlideIndex st' = ofNat i'
    /\ (App.slides st' <> [] ->
        (i' < List.length (App.slides st'))%nat
        /\ App.isPlaying st' = App.isPlaying st
        /\ exists s, App.currentSlide st' = Some s)
    /\ (App.slides st' = [] -> i' = 0%nat /\ App.isPlaying st' = false)
    /\ ((i < List.length (App.slides st'))%nat -> i' = i).
Proof.
  intros Hi st'.
  pose proof (removeSlide_index id0 st i Hi) as Hidx.
  cbv zeta in Hidx. fold st' in Hidx.
  set (n' := List.length (App.slides st')) in *.
  exists (if (n' <=? i)%nat then (n' - 1)%nat else i).
  split; [exact Hidx|].
  assert (Hplay : App.isPlaying st'
                  = if (n' =? 0)%nat then false else App.isPlaying st)
    by reflexivity.
  split; [|split].
  - intro Hne.
    assert (Hpos : (0 < n')%nat)
      by (unfold n'; destruct (App.slides st'); [contradiction | cbn; lia]).
    assert (Hlt : ((if (n' <=? i)%nat then (n' - 1)%nat else i) < n')%nat).
    { destruct (n' <=? i)%nat eqn:E; [lia|]. now apply Nat.leb_gt in E. }
    split; [exact Hlt|]. split.
    + rewrite Hplay. destruct n'; [lia | reflexivity].
    + unfold App.currentSlide. rewrite Hidx, index_ofNat.
      destruct (nth_error (App.slides st') _) eqn:E; eauto.
      apply nth_error_None in E. fold n' in E. lia.
  - intro He. assert (Hz : n' = 0%nat) by (unfold n'; now rewrite He).
    rewrite Hplay, Hz. split; reflexivity.
  - intro Hlt. apply Nat.leb_gt in Hlt. now rewrite Hlt.
Qed.

Lemma handleRemoveSlide_index_in_bounds_witness :
  exists i',
    App.currentSlideIndex
      (fst (App.handleRemoveSlide "c"
              (App.mkState exampleSlides exampleSettings None Loop true (ofNat 2))))
    = ofNat i'
    /\ (i' < 2)%nat.
Proof.
  destruct (handleRemoveSlide_index_in_bounds "c"
              (App.mkState exampleSlides exampleSettings None Loop true (ofNat 2))
              2 eq_refl) as (i' & Hi & Hne & _).
  exists i'. split; [exact Hi|]. apply Hne. discriminate.
Defined.

Lemma filter_all {A : Type} (f : A -> bool) (l : list A) :
  (forall x, In x l -> f x = true) -> filter f l = l.
Proof.
  induction l as [|a l IH]; intro H; cbn; trivial.
  rewrite (H a) by now left. f_equal. apply IH. intros x Hx. apply H. now right.
Qed.

(** X5: [handleRemoveSlide] removes every slide of the given id and only
    those, keeping the others in their order, and revokes the object URL of
    the first slide of that id.  For an id no slide has, nothing is revoked
    and the slides, the playback flag and an index in bounds are left as
    they were. *)
Theorem handleRemoveSlide_removes_id (id0 : string) (st : App.State) :
  let st' := fst (App.handleRemoveSlide id0 st) in
  let revoked := snd (App.handleRemoveSlide id0 st) in
  (forall s, In s (App.slides st') <-> In s (App.slides st) /\ id s <> id0)
  /\ (forall u, revoked = Some u ->
        exists s, In s (App.slides st) /\ id s = id0 /\ objectUrl s = u)
  /\ (revoked = None <-> forall s, In s (App.slides st) -> id s <> id0)
  /\ (revoked = None ->
      App.slides st' = App.slides st
      /\ (App.slides st <> [] -> App.isPlaying st' = App.isPlaying st)
      /\ forall i, App.currentSlideIndex st = ofNat i ->
                   (i < List.length (App.slides st))%nat ->
                   st' = st).
Proof.
  intros st' revoked.
  assert (Hnone : revoked = None <-> forall s, In s (App.slides st) -> id s <> id0).
  { unfold revoked, App.handleRemoveSlide. cbn [snd]. split.
    - intros H s Hs E.
      destruct (find _ (App.slides st)) as [x|] eqn:F; [discriminate|].
      apply (find_none _ _ F) in Hs. apply String.eqb_neq in Hs. contradiction.
    - intro H. destruct (find _ (App.slides st)) as [x|] eqn:F; trivial.
      apply find_some in F. destruct F as [Hx E]. apply String.eqb_eq in E.
      exfalso. exact (H x Hx E). }
  split; [|split; [|split; [exact Hnone|]]].
  - intro s. unfold st', App.handleRemoveSlide. cbn [fst App.slides].
    rewrite filter_In, negb_true_iff, String.eqb_neq. reflexivity.
  - intros u Hu. unfold revoked, App.handleRemoveSlide in Hu. cbn [snd] in Hu.
    destruct (find _ (App.slides st)) as [x|] eqn:F; [|discriminate].
    apply find_some in F. destruct F as [Hx E]. apply String.eqb_eq in E.
    injection Hu as <-. eauto.
  - intro Hrev0. pose proof (proj1 Hnone Hrev0) as Hrev.
    assert (Hsl : App.slides st' = App.slides st).
    { unfold st', App.handleRemoveSlide. cbn [fst App.slides].
      apply filter_all. intros x Hx. apply negb_true_iff, String.eqb_neq.
      now apply Hrev. }
    split; [exact Hsl|]. split.
    + intro Hne. unfold st', App.handleRemoveSlide. cbn [fst App.isPlaying].
      change (filter _ (App.slides st)) with (App.slides st'). rewrite Hsl.
      destruct (App.slides st); [contradiction | reflexivity].
    + intros i Hi Hlt.
      pose proof (removeSlide_index id0 st i Hi) as Hidx. cbv zeta in Hidx.
      fold st' in Hidx. rewrite Hsl in Hidx.
      apply Nat.leb_gt in Hlt. rewrite Hlt in Hidx. apply Nat.leb_gt in Hlt.
      assert (Hplay : App.isPlaying st' = App.isPlaying st).
      { unfold st', App.handleRemoveSlide. cbn [fst App.isPlaying].
        change (filter _ (App.slides st)) with (App.slides st'). rewrite Hsl.
        destruct (App.slides st); [cbn in Hlt; lia | reflexivity]. }
      assert (Hix : App.currentSlideIndex st' = App.currentSlideIndex st)
        by (rewrite Hidx, Hi; reflexivity).
      assert (Hse : App.settings st' = App.settings st) by reflexivity.
      assert (Hmu : App.musicUrl st' = App.musicUrl st) by reflexivity.
      assert (Hmb : App.musicBehavior st' = App.musicBehavior st) by reflexivity.
      destruct st' as [sl' se' mu' mb' pl' ix'], st as [sl se mu mb pl ix].
      cbn [App.slides App.settings App.musicUrl App.musicBehavior
           App.isPlaying App.currentSlideIndex] in *.
      congruence.
Qed.

(** X6: [handleSlideMotionChange] touches nothing but the motion of the slides
    of the given id: position by position the slide keeps its id and object
    URL and takes the new motion if its id is the given one, its old motion
    otherwise; the index, the settings and the playback flag are unchanged.
    For an id no slide has the state is unchanged, and repeating the change
    changes nothing more. *)
Theorem handleSlideMotionChange_pointwise
    (id0 : string) (m : MotionEffect) (st : App.State) :
  let st' := App.handleSlideMotionChange id0 m st in
  List.length (App.slides st') = List.length (App.slides st)
  /\ (forall k s, nth_error (App.slides st) k = Some s ->
        exists s', nth_error (App.slides st') k = Some s'
                   /\ id s' = id s /\ objectUrl s' = objectUrl s
                   /\ motion s' = if String.eqb (id s) id0 then m else motion s)
  /\ App.currentSlideIndex st' = App.currentSlideIndex st
  /\ App.isPlaying st' = App.isPlaying st
  /\ ((forall s, In s (App.slides st) -> id s <> id0) -> st' = st)
  /\ App.handleSlideMotionChange id0 m st' = st'.
Proof.
  intro st'. unfold st', App.handleSlideMotionChange, App.withSlides.
  cbn [App.slides App.currentSlideIndex App.isPlaying App.settings
       App.musicUrl App.musicBehavior].
  split; [apply length_map|]. split; [|split; [reflexivity|split; [reflexivity|split]]].
  - intros k s Hs. rewrite nth_error_map, Hs. cbn [option_map].
    eexists. split; [reflexivity|].
    destruct (String.eqb (id s) id0); cbn; auto.
  - intro Hno. destruct st as [sl se mu mb pl ix].
    cbn [App.slides App.currentSlideIndex App.isPlaying App.settings
         App.musicUrl App.musicBehavior] in *.
    f_equal. rewrite <- (map_id sl) at 2. apply map_ext_in.
    intros s Hs. apply Hno in Hs. apply String.eqb_neq in Hs. now rewrite Hs.
  - f_equal. rewrite map_map. apply map_ext. intro s.
    destruct (String.eqb (id s) id0) eqn:E; cbn [id App.setMotion]; rewrite E;
      reflexivity.
Qed.




Lemma randomMotions_length (randoms : nat -> num) (l l' : list ImageSlide)
    (k : nat) :
  App.randomMotions randoms k l = Some l' -> List.length l' = List.length l.
Proof.
  revert k l'. induction l as [|s l IH]; intros k l' H; cbn in H.
  - now injection H as <-.
  - destruct (getRandomMotion (randoms k)); [|discriminate].
    destruct (App.randomMotions randoms (S k) l) as [r|] eqn:E; [|discriminate].
    injection H as <-. cbn. f_equal. exact (IH _ _ E).
Qed.

Lemma uploaded_length (stamps : nat -> string) (k : nat) (fs : list App.File) :
  List.length (App.uploaded stamps k fs) = List.length fs.
Proof.
  revert k. induction fs as [|f fs IH]; intro k; cbn; trivial. now rewrite IH.
Qed.

Lemma inBounds_same_length (st st' : App.State) :
  List.length (App.slides st') = List.length (App.slides st) ->
  App.currentSlideIndex st' = App.currentSlideIndex st ->
  App.inBounds st -> App.inBounds st'.
Proof.
  intros Hlen Hidx (i & Hi & Hb). exists i. rewrite Hidx. split; trivial.
  destruct Hb as [Hlt | [He Hz]].
  - left. now rewrite Hlen.
  - right. split; trivial. rewrite He in Hlen.
    now destruct (App.slides st').
Qed.

Lemma step_inBounds (st : App.State) (a : App.Action) :
  App.inBounds st -> App.inBounds (App.step st a).
Proof.
  intro Hinv. destruct a as [files stamp | file | c | id0 m | id0 | randoms | | b | ];
    cbn [App.step].
  - destruct files as [fs|]; cbn [App.handleImageUpload]; trivial.
    destruct Hinv as (i & Hi & Hb). exists i.
    cbn [App.withSlides App.currentSlideIndex App.slides]. split; trivial.
    rewrite length_app, uploaded_length.
    destruct Hb as [Hlt | [He Hz]].
    + left. lia.
    + rewrite He. cbn [app List.length]. destruct fs as [|f fs].
      * right. auto.
      * left. cbn. lia.
  - destruct file; exact Hinv.
  - exact Hinv.
  - apply (inBounds_same_length st); trivial.
    cbn. apply length_map.
  - destruct Hinv as (i & Hi & _).
    pose proof (removeSlide_index id0 st i Hi) as Hidx. cbv zeta in Hidx.
    set (st' := fst (App.handleRemoveSlide id0 st)) in *.
    set (n' := List.length (App.slides st')) in *.
    eexists. split; [exact Hidx|]. fold n'.
    destruct (Nat.eq_dec n' 0) as [Hz | Hnz].
    + right. rewrite Hz. split; [|reflexivity].
      unfold n' in Hz. now destruct (App.slides st').
    + left. destruct (n' <=? i)%nat eqn:E.
      * lia.
      * now apply Nat.leb_gt in E.
  - unfold App.applyRandomMotionToAll.
    destruct (App.randomMotions randoms 0 (App.slides st)) as [l|] eqn:E; trivial.
    apply (inBounds_same_length st); trivial.
    cbn. exact (randomMotions_length _ _ _ _ E).
  - unfold App.playPause.
    destruct (List.length (App.slides st) =? 0)%nat; exact Hinv.
  - exact Hinv.
  - unfold App.timerFires.
    destruct (App.isPlaying st && (1 <? List.length (App.slides st))%nat) eqn:E;
      trivial.
    apply andb_true_iff in E. destruct E as [_ E]. apply Nat.ltb_lt in E.
    destruct Hinv as (i & Hi & _).
    destruct (advanceSlide_step st i Hi) as [Hidx Hsl].
    eexists. split; [apply Hidx; lia|]. left. rewrite Hsl.
    apply Nat.mod_upper_bound. lia.
Qed.

Lemma run_inBounds (actions : list App.Action) (st : App.State) :
  App.inBounds st -> App.inBounds (App.run st actions).
Proof.
  revert st. induction actions as [|a actions IH]; intros st H; cbn; trivial.
  apply IH. now apply step_inBounds.
Qed.

(** X8: Whatever the user and the timer do (uploads, removals, motion and
    settings changes, play and pause, timer ticks), in any order from the
    initial state, [currentSlideIndex] stays a whole number that designates
    a slide, or 0 when there is none: the player always has a current slide
    to show when there are slides. *)
Theorem editor_index_always_in_bounds (actions : list App.Action) :
  let st := App.run App.initial actions in
  App.inBounds st
  /\ (App.slides st <> [] -> exists s, App.currentSlide st = Some s).
Proof.
  intro st.
  assert (Hinv : App.inBounds st).
  { apply run_inBounds. exists 0%nat. split; [reflexivity|]. right. auto. }
  split; trivial. intro Hne.
  destruct Hinv as (i & Hi & [Hlt | [He _]]); [|contradiction].
  unfold App.currentSlide. rewrite Hi, index_ofNat.
  destruct (nth_error (App.slides st) i) eqn:E; eauto.
  apply nth_error_None in E. lia.
Qed.

(** ** More on the frame callback *)

















(** ** More on [handleExport] *)



Lemma schedule_preserves (mk : Qc -> Qc -> Gain.Event) (v : Qc) (t : num)
    (st st' : AudioState) (c : Completion unit) :
  schedule mk v t st = (st', c) ->
  exportAudio st' = exportAudio st
  /\ releasedAudio st' = releasedAudio st
  /\ streamAudioTracks st' = streamAudioTracks st
  /\ mainPlayerMuted st' = mainPlayerMuted st
  /\ progressLog st' = progressLog st.
Proof.
  unfold schedule, throw, modify. intro H.
  destruct t as [q| |]; [destruct (Qcltb q 0)|..];
    injection H as <- _; cbn; auto.
Qed.

Lemma planFade_preserves (slides : list ImageSlide) (settings : SlideshowSettings)
    (b : MusicBehavior) (env : AudioEnv) (st st' : AudioState)
    (c : Completion unit) :
  planFade slides settings b env st = (st', c) ->
  exportAudio st' = exportAudio st
  /\ releasedAudio st' = releasedAudio st
  /\ streamAudioTracks st' = streamAudioTracks st
  /\ mainPlayerMuted st' = mainPlayerMuted st
  /\ progressLog st' = progressLog st.
Proof.
  unfold planFade, when.
  destruct (behaviorIsFade b && _); [|intro H; injection H as <- _; auto].
  unfold bind.
  destruct (schedule Gain.SetValueAtTime 1 (contextTime env) st)
    as [s1 [[]|]] eqn:E1.
  - apply schedule_preserves in E1. destruct E1 as (A1 & B1 & C1 & D1 & F1).
    destruct (ngt _ _).
    + destruct (schedule Gain.SetValueAtTime 1 _ s1) as [s2 [[]|]] eqn:E2.
      * apply schedule_preserves in E2. destruct E2 as (A2 & B2 & C2 & D2 & F2).
        intro H. apply schedule_preserves in H.
        destruct H as (A3 & B3 & C3 & D3 & F3). repeat split; congruence.
      * apply schedule_preserves in E2. destruct E2 as (A2 & B2 & C2 & D2 & F2).
        intro H. injection H as <- _. repeat split; congruence.
    + unfold ret. intro H. apply schedule_preserves in H.
      destruct H as (A3 & B3 & C3 & D3 & F3). repeat split; congruence.
  - apply schedule_preserves in E1. destruct E1 as (A1 & B1 & C1 & D1 & F1).
    intro H. injection H as <- _. auto.
Qed.

Lemma audioCatch_releases (st : AudioState) (a : HTMLAudioElement) :
  exportAudio st = Some a ->
  audioCatch st
  = (mkAudioState None
       (releasedAudio st ++ [mkAudio (audioSrc a) (loop a) (currentTime a) true])
       (streamAudioTracks st) (gainCalls st) (mainPlayerMuted st)
       (progressLog st ++ [MsgAudioFailed]),
     Normal tt).
Proof.
  intro H. destruct st as [ea ra tr gc mu lg]. cbn [exportAudio] in H. subst ea.
  reflexivity.
Qed.

Lemma audioCatch_nothing (st : AudioState) :
  exportAudio st = None ->
  audioCatch st
  = (mkAudioState None (releasedAudio st) (streamAudioTracks st) (gainCalls st)
                  (mainPlayerMuted st) (progressLog st ++ [MsgAudioFailed]),
     Normal tt).
Proof.
  intro H. destruct st as [ea ra tr gc mu lg]. cbn [exportAudio] in H. subst ea.
  reflexivity.
Qed.

(** The state in which the fade is planned, when every step before it
    succeeded. *)
Lemma audioTry_reaches_plan (slides : list ImageSlide)
    (settings : SlideshowSettings) (b : MusicBehavior) (hasMainPlayer : bool)
    (env : AudioEnv) (url : string) :
  contextConstructs env = true -> readiness env = CanPlayThrough ->
  graphConstructs env = true ->
  audioTry slides settings b hasMainPlayer env url initialAudioState
  = planFade slides settings b env
      (mkAudioState (Some (mkAudio url (behaviorIsLoop b) (Fin 0) false)) []
                    (if destinationHasTrack env then 1 else 0) []
                    hasMainPlayer []).
Proof.
  intros Hc Hr Hg. unfold audioTry.
  set (pf := planFade slides settings b env).
  unfold bind, guard, ret, setExportAudio, updateExportAudio, when, addTrack,
    muteMainPlayer, modify, initialAudioState.
  rewrite Hc, Hr, Hg. cbn.
  destruct (destinationHasTrack env), hasMainPlayer; cbn; reflexivity.
Qed.

Lemma audioTry_fails_early (slides : list ImageSlide)
    (settings : SlideshowSettings) (b : MusicBehavior) (hasMainPlayer : bool)
    (env : AudioEnv) (url : string) :
  contextConstructs env = false \/ readiness env <> CanPlayThrough
  \/ graphConstructs env = false ->
  audioTry slides settings b hasMainPlayer env url initialAudioState
  = (mkAudioState
       (if contextConstructs env then Some (mkAudio url false (Fin 0) true)
        else None)
       [] 0 [] false [],
     Thrown).
Proof.
  intro H. unfold audioTry.
  set (pf := planFade slides settings b env).
  unfold bind, guard, ret, throw, setExportAudio, updateExportAudio, when,
    addTrack, muteMainPlayer, modify, initialAudioState.
  destruct (contextConstructs env); cbn; trivial.
  destruct (readiness env); cbn; trivial.
  destruct (graphConstructs env); cbn; trivial.
  exfalso. destruct H as [H | [H | H]]; congruence.
Qed.

Lemma audioSetup_cases
    (slides : list ImageSlide) (settings : SlideshowSettings)
    (musicBehavior : MusicBehavior) (hasMainPlayer : bool) (env : AudioEnv)
    (musicUrl : option string) :
  let result :=
    audioSetup slides settings musicBehavior hasMainPlayer env musicUrl
               initialAudioState in
  snd result = Normal tt
  /\ match musicUrl with
     | None => fst result = initialAudioState
     | Some url =>
         (exportAudio (fst result)
          = Some (mkAudio url (behaviorIsLoop musicBehavior) (Fin 0) false)
          /\ progressLog (fst result) = []
          /\ releasedAudio (fst result) = []
          /\ mainPlayerMuted (fst result) = hasMainPlayer
          /\ streamAudioTracks (fst result)
             = (if destinationHasTrack env then 1 else 0)%nat
          /\ contextConstructs env = true
          /\ readiness env = CanPlayThrough
          /\ graphConstructs env = true)
         \/ (exportAudio (fst result) = None
             /\ progressLog (fst result) = [MsgAudioFailed]
             /\ Forall (fun a => paused a = true) (releasedAudio (fst result))
             /\ (List.length (releasedAudio (fst result))
                 = if contextConstructs env then 1 else 0)%nat
             /\ (mainPlayerMuted (fst result) = true -> hasMainPlayer = true))
     end.
Proof.
  intro result. unfold result. clear result.
  destruct musicUrl as [url|]; [|split; reflexivity].
  unfold audioSetup.
  destruct (contextConstructs env) eqn:Hc;
    [destruct (readiness env) eqn:Hr;
     [destruct (graphConstructs env) eqn:Hg|..]|].
  - rewrite audioTry_reaches_plan by assumption.
    destruct (planFade _ _ _ _ _) as [s' [[]|]] eqn:E;
      apply planFade_preserves in E;
      cbn [exportAudio releasedAudio streamAudioTracks mainPlayerMuted
           progressLog] in E;
      destruct E as (A & B & C & D & F).
    + split; [reflexivity|]. left. cbn [fst]. auto 10.
    + rewrite (audioCatch_releases s' _ A). split; [reflexivity|]. right.
      cbn [fst exportAudio progressLog releasedAudio].
      rewrite F, B, D. cbn. repeat split; auto; repeat constructor.
  - rewrite audioTry_fails_early by (right; right; exact Hg). rewrite Hc. cbv iota.
    erewrite audioCatch_releases by reflexivity. split; [reflexivity|]. right.
    cbn. repeat split; try discriminate; repeat constructor.
  - rewrite audioTry_fails_early by (right; left; congruence). rewrite Hc. cbv iota.
    erewrite audioCatch_releases by reflexivity. split; [reflexivity|]. right.
    cbn. repeat split; try discriminate; repeat constructor.
  - rewrite audioTry_fails_early by (right; left; congruence). rewrite Hc. cbv iota.
    erewrite audioCatch_releases by reflexivity. split; [reflexivity|]. right.
    cbn. repeat split; try discriminate; repeat constructor.
  - rewrite audioTry_fails_early by (left; exact Hc). rewrite Hc. cbv iota.
    erewrite audioCatch_nothing by reflexivity. split; [reflexivity|]. right.
    cbn. repeat split; try discriminate; repeat constructor.
Qed.

(** X15: The audio set-up never lets an exception out, whatever the browser
    answers and whatever the settings.  With no music it does nothing.  With
    music, either every step succeeded and the export audio element is
    left playing from 0, looping exactly in loop mode, with no warning; or
    the warning is sent to the progress channel, no export audio element is
    kept and the one created, if any, has been paused. *)
Theorem audioSetup_always_recovers
    (slides : list ImageSlide) (settings : SlideshowSettings)
    (musicBehavior : MusicBehavior) (hasMainPlayer : bool) (env : AudioEnv)
    (musicUrl : option string) :
  let result :=
    audioSetup slides settings musicBehavior hasMainPlayer env musicUrl
               initialAudioState in
  snd result = Normal tt
  /\ match musicUrl with
     | None => fst result = initialAudioState
     | Some url =>
         (exportAudio (fst result)
          = Some (mkAudio url (behaviorIsLoop musicBehavior) (Fin 0) false)
          /\ progressLog (fst result) = []
          /\ releasedAudio (fst result) = []
          /\ mainPlayerMuted (fst result) = hasMainPlayer
          /\ streamAudioTracks (fst result)
             = (if destinationHasTrack env then 1 else 0)%nat
          /\ contextConstructs env = true
          /\ readiness env = CanPlayThrough
          /\ graphConstructs env = true)
         \/ (exportAudio (fst result) = None
             /\ progressLog (fst result) = [MsgAudioFailed]
             /\ Forall (fun a => paused a = true) (releasedAudio (fst result))
             /\ (List.length (releasedAudio (fst result))
                 = if contextConstructs env then 1 else 0)%nat
             /\ (mainPlayerMuted (fst result) = true -> hasMainPlayer = true))
     end.
Proof.
  exact (audioSetup_cases slides settings musicBehavior hasMainPlayer env musicUrl).
Qed.

(** X16: Over a whole export, from the audio set-up to [recorder.onstop], no
    export audio element is left behind on any path: the element, if one
    was created, has been paused and dropped exactly once, the player of the
    editor is unmuted again, and the progress text is cleared. *)
Theorem export_audio_released_at_stop
    (slides : list ImageSlide) (settings : SlideshowSettings)
    (musicBehavior : MusicBehavior) (hasMainPlayer : bool) (env : AudioEnv)
    (musicUrl : option string) :
  let result :=
    exportAudioLifecycle slides settings musicBehavior hasMainPlayer env
                         musicUrl initialAudioState in
  snd result = Normal tt
  /\ exportAudio (fst result) = None
  /\ mainPlayerMuted (fst result) = false
  /\ Forall (fun a => paused a = true) (releasedAudio (fst result))
  /\ List.length (releasedAudio (fst result))
     = match musicUrl with
       | Some _ => if contextConstructs env then 1%nat else 0%nat
       | None => 0%nat
       end
  /\ last (progressLog (fst result)) MsgInit = MsgEmpty.
Proof.
  intro result. unfold result, exportAudioLifecycle. clear result.
  pose proof (audioSetup_cases slides settings musicBehavior hasMainPlayer env
                musicUrl) as H.
  cbv zeta in H. unfold bind.
  destruct (audioSetup slides settings musicBehavior hasMainPlayer env musicUrl
                       initialAudioState) as [st c].
  cbn [fst snd] in H. destruct H as [Hc H]. subst c.
  destruct st as [ea ra tr gc mu lg].
  cbn [exportAudio releasedAudio mainPlayerMuted progressLog] in H.
  unfold recorderOnStop, bind, setExportProgress, releaseExportAudio, when,
    unmuteMainPlayer, modify, ret.
  cbn [exportAudio releasedAudio streamAudioTracks gainCalls mainPlayerMuted
       progressLog].
  destruct musicUrl as [url|].
  - destruct H as [(Ha & Hl & Hrel & Hm & _ & Hctx & _) | (Ha & Hl & Hp & Hlen & Hm)].
    + subst ea lg ra mu. rewrite Hctx.
      destruct hasMainPlayer; cbn; repeat split; repeat constructor.
    + subst ea lg. rewrite <- Hlen.
      destruct hasMainPlayer; cbn; repeat split; trivial.
      destruct mu; trivial. discriminate (Hm eq_refl).
  - unfold initialAudioState in H. injection H as -> -> -> -> -> ->.
    destruct hasMainPlayer; cbn; repeat split; constructor.
Qed.

(** ** The geometry of [drawSlideWithMotion] *)








(** ** Uploads and slide ids *)

Lemma dashFree_append_dash (a b : string) :
  App.dashFree (a ++ String "-"%char b) = false.
Proof.
  induction a as [|c a IH]; cbn.
  - reflexivity.
  - rewrite IH. apply andb_false_r.
Qed.

Lemma append_dash_inj (n1 n2 t1 t2 : string) :
  App.dashFree t1 = true -> App.dashFree t2 = true ->
  (n1 ++ "-" ++ t1)%string = (n2 ++ "-" ++ t2)%string ->
  n1 = n2 /\ t1 = t2.
Proof.
  intros H1 H2. revert n2.
  induction n1 as [|c n1 IH]; intros [|c2 n2] E; cbn in E.
  - injection E as E. auto.
  - injection E as Ec Et. subst t1.
    change ("-" ++ t2)%string with (String "-"%char t2) in H1.
    rewrite dashFree_append_dash in H1. discriminate.
  - injection E as Ec Et. subst t2.
    change ("-" ++ t1)%string with (String "-"%char t1) in H2.
    rewrite dashFree_append_dash in H2. discriminate.
  - injection E as Ec Et. subst c2.
    destruct (IH n2 Et) as [-> ->]. auto.
Qed.

Lemma uploaded_nth (stamps : nat -> string) (fs : list App.File) (k j : nat)
    (f : App.File) :
  nth_error fs j = Some f ->
  nth_error (App.uploaded stamps k fs) j
  = Some (mkSlide (App.fileName f ++ "-" ++ stamps (k + j)%nat)%string
                  (App.fileUrl f) ZoomIn).
Proof.
  revert k j. induction fs as [|g fs IH]; intros k [|j] H; cbn in *;
    try discriminate.
  - injection H as ->. now rewrite Nat.add_0_r.
  - rewrite (IH (S k) j H). now rewrite Nat.add_succ_r.
Qed.

(** X19: [handleImageUpload] appends: the slides already there stay where they
    are, unchanged, and each file gives one new slide after them, in the
    order of the files, with the file's object URL, the zoom-in motion and
    the id made of the file name, a dash and the time of its creation; a
    cancelled dialog changes nothing; index and playback are untouched.  As
    the time is written without a dash, two new slides get the same id only
    for the same file name at the same millisecond. *)
Theorem handleImageUpload_appends
    (fs : list App.File) (stamps : nat -> string) (st : App.State) :
  let st' := App.handleImageUpload (Some fs) stamps st in
  let old := List.length (App.slides st) in
  List.length (App.slides st') = (old + List.length fs)%nat
  /\ (forall k s, nth_error (App.slides st) k = Some s ->
                  nth_error (App.slides st') k = Some s)
  /\ (forall j f, nth_error fs j = Some f ->
        nth_error (App.slides st') (old + j)
        = Some (mkSlide (App.fileName f ++ "-" ++ stamps j)%string
                        (App.fileUrl f) ZoomIn))
  /\ App.currentSlideIndex st' = App.currentSlideIndex st
  /\ App.isPlaying st' = App.isPlaying st
  /\ App.handleImageUpload None stamps st = st
  /\ ((forall j, App.dashFree (stamps j) = true) ->
      forall i j f g s1 s2,
        nth_error fs i = Some f -> nth_error fs j = Some g ->
        nth_error (App.slides st') (old + i) = Some s1 ->
        nth_error (App.slides st') (old + j) = Some s2 ->
        id s1 = id s2 ->
        App.fileName f = App.fileName g /\ stamps i = stamps j).
Proof.
  intros st' old. unfold st', App.handleImageUpload, App.withSlides.
  cbn [App.slides App.currentSlideIndex App.isPlaying].
  assert (Hnew : forall j f, nth_error fs j = Some f ->
            nth_error (App.slides st ++ App.uploaded stamps 0 fs) (old + j)
            = Some (mkSlide (App.fileName f ++ "-" ++ stamps j)%string
                            (App.fileUrl f) ZoomIn)).
  { intros j f Hf. rewrite nth_error_app2 by (unfold old; lia).
    replace (old + j - List.length (App.slides st))%nat with j by (unfold old; lia).
    now rewrite (uploaded_nth stamps fs 0 j f Hf). }
  split; [|split; [|split; [exact Hnew|split; [reflexivity|split; [reflexivity|split; [reflexivity|]]]]]].
  - rewrite length_app, uploaded_length. reflexivity.
  - intros k s Hs. rewrite nth_error_app1; trivial.
    apply nth_error_Some. congruence.
  - intros Hd i j f g s1 s2 Hf Hg H1 H2 Hid.
    rewrite (Hnew i f Hf) in H1. rewrite (Hnew j g Hg) in H2.
    injection H1 as <-. injection H2 as <-. cbn [id] in Hid.
    now apply append_dash_inj.
Qed.

Lemma filter_NoDup_remove (l : list ImageSlide) (s : ImageSlide) :
  NoDup (map id l) -> In s l ->
  exists l1 l2,
    l = l1 ++ s :: l2
    /\ filter (fun x => negb (String.eqb (id x) (id s))) l = l1 ++ l2
    /\ find (fun x => String.eqb (id x) (id s)) l = Some s.
Proof.
  induction l as [|a l IH]; intros Hnd Hin; [contradiction|].
  cbn [map] in Hnd. inversion Hnd as [|? ? Hnotin Hnd']; subst.
  destruct Hin as [-> | Hin].
  - exists [], l. cbn. rewrite String.eqb_refl. cbn.
    split; [reflexivity|]. split; [|reflexivity].
    apply filter_all. intros x Hx. apply negb_true_iff, String.eqb_neq.
    intro E. apply Hnotin. rewrite <- E. now apply in_map.
  - destruct (IH Hnd' Hin) as (l1 & l2 & El & Ef & Efind).
    assert (Hne : id a <> id s).
    { intro E. apply Hnotin. rewrite E. now apply in_map. }
    apply String.eqb_neq in Hne.
    exists (a :: l1), l2. cbn. rewrite Hne. cbn.
    rewrite El at 1. split; [reflexivity|]. split; [now rewrite Ef | exact Efind].
Qed.

(** X20: When the ids are pairwise distinct, [handleRemoveSlide] with the id of
    a slide removes exactly that slide, keeping all the others in place
    around it, and revokes exactly its object URL. *)
Theorem handleRemoveSlide_exactly_one (s : ImageSlide) (st : App.State) :
  NoDup (map id (App.slides st)) -> In s (App.slides st) ->
  let st' := fst (App.handleRemoveSlide (id s) st) in
  exists before after,
    App.slides st = before ++ s :: after
    /\ App.slides st' = before ++ after
    /\ S (List.length (App.slides st')) = List.length (App.slides st)
    /\ snd (App.handleRemoveSlide (id s) st) = Some (objectUrl s)
    /\ ~ In s (App.slides st').
Proof.
  intros Hnd Hin st'.
  destruct (filter_NoDup_remove _ s Hnd Hin) as (l1 & l2 & El & Ef & Efind).
  exists l1, l2. unfold st', App.handleRemoveSlide. cbn [fst snd App.slides].
  rewrite Ef, Efind. split; [exact El|]. split; [reflexivity|].
  split; [rewrite El, !length_app; cbn; lia|]. split; [reflexivity|].
  intro Hs. rewrite <- Ef in Hs. apply filter_In in Hs. destruct Hs as [_ Hs].
  rewrite String.eqb_refl in Hs. discriminate.
Qed.

Lemma handleRemoveSlide_exactly_one_witness :
  exists before after,
    exampleSlides = before ++ mkSlide "b" "blob:b" PanLeft :: after
    /\ App.slides
         (fst (App.handleRemoveSlide "b"
                 (App.mkState exampleSlides exampleSettings None Loop false
                              (ofNat 0))))
       = before ++ after.
Proof.
  destruct (handleRemoveSlide_exactly_one (mkSlide "b" "blob:b" PanLeft)
              (App.mkState exampleSlides exampleSettings None Loop false (ofNat 0)))
    as (before & after & H1 & H2 & _).
  - cbn. repeat constructor; cbn; intuition discriminate.
  - cbn. auto.
  - exists before, after. split; [exact H1 | exact H2].
Defined.

(** ** The audio set-up when every step succeeds *)

Lemma planFade_from (slides : list ImageSlide) (s t now : Qc)
    (eff : TransitionEffect) (b : MusicBehavior) (env : AudioEnv)
    (st : AudioState) :
  0 < s + t -> 0 <= now -> contextTime env = Fin now ->
  let total := qz (Z.of_nat (List.length slides)) * (s + t) in
  planFade slides (mkSettings (Fin s) (Fin t) eff) b env st
  = (mkAudioState (exportAudio st) (releasedAudio st) (streamAudioTracks st)
       (gainCalls st
        ++ if behaviorIsFade b && nlt (Fin total) (duration env)
           then fadeCalls now total (qmin (qz 2) t) else [])
       (mainPlayerMuted st) (progressLog st),
     Normal tt).
Proof.
  intros Hp Hnow Hctx total. unfold planFade.
  change (nmul (ofNat (List.length slides))
               (nadd (slideDuration (mkSettings (Fin s) (Fin t) eff))
                     (transitionDuration (mkSettings (Fin s) (Fin t) eff))))
    with (Fin total).
  destruct (behaviorIsFade b && nlt (Fin total) (duration env)); cbn [when].
  - cbn [transitionDuration]. rewrite nmin_fin.
    cbn [nsub nneg nadd]. rewrite Hctx. cbn [nadd ngt nlt].
    pose proof (total_nonneg slides s t Hp) as HT. fold total in HT.
    fold (total - qmin (qz 2) t).
    unfold bind at 1. rewrite (schedule_fin _ _ _ _ Hnow).
    unfold fadeCalls.
    cbn [exportAudio releasedAudio streamAudioTracks gainCalls mainPlayerMuted
         progressLog].
    destruct (Qcltb 0 (total - qmin (qz 2) t)) eqn:Hfs; cbn [when].
    + apply Qcltb_lt in Hfs.
      unfold bind at 1. rewrite schedule_fin by (qc2q; lra).
      cbn [exportAudio releasedAudio streamAudioTracks gainCalls mainPlayerMuted
           progressLog].
      rewrite schedule_fin by (qc2q; lra).
      cbn [exportAudio releasedAudio streamAudioTracks gainCalls mainPlayerMuted
           progressLog app].
      rewrite <- !app_assoc. reflexivity.
    + unfold bind, ret. rewrite schedule_fin by (qc2q; lra).
      cbn [exportAudio releasedAudio streamAudioTracks gainCalls mainPlayerMuted
           progressLog app].
      rewrite <- !app_assoc. reflexivity.
  - unfold ret. rewrite app_nil_r. now destruct st.
Qed.

(** X21: When the browser raises nothing (context and graph constructed, track
    ready) the audio set-up succeeds for any settings of positive period:
    the export audio element plays from 0, looping exactly in loop mode, the
    recorded stream gets the destination's audio track, the player of the
    editor is muted, no warning is sent, and a fade is scheduled exactly in
    fade-out mode for a track longer than the slideshow. *)
Theorem audioSetup_succeeds
    (slides : list ImageSlide) (s t now : Qc) (eff : TransitionEffect)
    (musicBehavior : MusicBehavior) (hasMainPlayer : bool) (env : AudioEnv)
    (url : string) :
  0 < s + t -> 0 <= now -> contextTime env = Fin now ->
  contextConstructs env = true -> readiness env = CanPlayThrough ->
  graphConstructs env = true ->
  let total := qz (Z.of_nat (List.length slides)) * (s + t) in
  audioSetup slides (mkSettings (Fin s) (Fin t) eff) musicBehavior hasMainPlayer
             env (Some url) initialAudioState
  = (mkAudioState
       (Some (mkAudio url (behaviorIsLoop musicBehavior) (Fin 0) false))
       []
       (if destinationHasTrack env then 1 else 0)
       (if behaviorIsFade musicBehavior && nlt (Fin total) (duration env)
        then fadeCalls now total (qmin (qz 2) t) else [])
       hasMainPlayer
       [],
     Normal tt).
Proof.
  intros Hp Hnow Hctx Hc Hr Hg total. unfold audioSetup.
  rewrite audioTry_reaches_plan by assumption.
  rewrite (planFade_from slides s t now eff musicBehavior env _ Hp Hnow Hctx).
  reflexivity.
Qed.

Lemma audioSetup_succeeds_witness :
  gainCalls
    (fst (audioSetup exampleSlides exampleSettings Fade true
            (mkAudioEnv true CanPlayThrough true true (Fin (qz 20)) (Fin 0))
            (Some "blob:music"%string) initialAudioState))
  = fadeCalls 0 (qz 3 * (qz 4 + qz 1)) (qmin (qz 2) (qz 1)).
Proof.
  assert (Hp : 0 < qz 4 + qz 1) by reflexivity.
  assert (Hnow : 0 <= 0) by discriminate.
  pose proof (audioSetup_succeeds exampleSlides (qz 4) (qz 1) 0 TFade Fade true
                (mkAudioEnv true CanPlayThrough true true (Fin (qz 20)) (Fin 0))
                "blob:music"%string Hp Hnow eq_refl eq_refl eq_refl eq_refl) as H.
  cbv zeta in H. unfold exampleSettings. rewrite H. reflexivity.
Defined.
